(** * Facial expression generator: the batch generation and packaging workflow

    A shallow embedding of [App.tsx] (upload, batch generation, archive
    export) and of [types.ts], with the properties of the workflow stated
    and proved over it.

    - JavaScript strings are sequences of UTF-16 code units ([list N]).
    - JavaScript numbers are IEEE binary64 values ([spec_float], with the
      operations of [SpecFloat] at precision 53).
    - React state is a record; an event handler reads the state of the
      render it was created in and issues setter calls, requests and
      downloads, which are recorded in order.
    - The concurrent generation calls are events [Settle] of a transition
      system: each call of each batch settles at most once, in any order,
      with a payload or with a rejection reason, which may be any value.
    - A file read ends with a data URL or, when it has failed, with none.
    - The archive library is a finite map from entry names to folders and
      data; its base64 decoder is a parameter. *)

From Stdlib Require Import ZArith Ascii String Floats.SpecFloat.
From stdpp Require Import base list sorting gmap.

Set Default Proof Using "Type".

(** ** JavaScript strings *)

Module Js.

(** A string value: its UTF-16 code units. *)
Abbreviation str := (list N).

(** A literal of the source (all of them are ASCII). *)
Definition lit (s : string) : str :=
  (λ a, N_of_ascii a) <$> list_ascii_of_string s.

(** [s.startsWith(p)] *)
Fixpoint startsWith (p s : str) : bool :=
  match p, s with
  | [], _ => true
  | _ :: _, [] => false
  | a :: p', b :: s' => (a =? b)%N && startsWith p' s'
  end.

(** [s.split(sep)] for a one-unit separator: the segments between the
    occurrences of [sep]; never empty. *)
Fixpoint split (sep : N) (s : str) : list str :=
  match s with
  | [] => [[]]
  | c :: r =>
      if (c =? sep)%N then [] :: split sep r
      else match split sep r with
           | seg :: segs => (c :: seg) :: segs
           | [] => [[c]]
           end
  end.

(** The class [\s] of ECMAScript regular expressions: WhiteSpace and
    LineTerminator code points. *)
Definition isWhiteSpace (c : N) : bool :=
  ((9 <=? c) && (c <=? 13) || (c =? 32) || (c =? 160) || (c =? 5760)
   || (8192 <=? c) && (c <=? 8202) || (c =? 8232) || (c =? 8233)
   || (c =? 8239) || (c =? 8287) || (c =? 12288) || (c =? 65279))%N.

(** The class [[\(\)]]. *)
Definition isParen (c : N) : bool := ((c =? 40) || (c =? 41))%N.

(** A pattern is given by the length of its match anchored at the start
    of the remaining input, [0] when it does not match there (neither
    pattern of the source matches the empty string). *)
Definition pattern := str → nat.

(** [/[\(\)]/]: one parenthesis. *)
Definition parenPattern : pattern :=
  λ s, match s with
       | c :: _ => if isParen c then 1 else 0
       | [] => 0
       end.

Fixpoint spaceRun (s : str) : nat :=
  match s with
  | c :: r => if isWhiteSpace c then S (spaceRun r) else 0
  | [] => 0
  end.

(** [/\s+/]: the longest run of white space (the quantifier is greedy). *)
Definition spacePattern : pattern := spaceRun.

(** [s.replace(/re/g, by)]: scan from the left; where the pattern matches,
    emit [by] and resume after the match, otherwise keep the unit and
    resume at the next one. [skip] counts the units of the current match
    that are still to be passed over. *)
Fixpoint replaceFrom (re : pattern) (by_ : str) (skip : nat) (s : str) : str :=
  match s with
  | [] => []
  | c :: r =>
      match skip with
      | S k => replaceFrom re by_ k r
      | O =>
          match re s with
          | O => c :: replaceFrom re by_ 0 r
          | S k => by_ ++ replaceFrom re by_ k r
          end
      end
  end.

Definition replaceAll (re : pattern) (by_ : str) (s : str) : str :=
  replaceFrom re by_ 0 s.

End Js.

Notation "« s »" := (Js.lit s) (at level 0, s at level 0, format "« s »").

(** ** The data contracts of [types.ts] *)

(** The part of a DOM [File] the application reads: its declared media
    type. [name] tells files of the same type apart. *)
Record File := { name : Js.str; type : Js.str }.

Record GeneratedImage := { expression : Js.str; base64 : Js.str }.

Record OriginalImage := { file : File; dataUrl : Js.str }.

(** What the [originalImage] cell holds when it is not [null]: an image as
    [types.ts] declares it, or, after a read that failed, the object that
    [onloadend] builds from a [reader.result] that is [null] (the cast
    [as string] checks nothing): a file with a [dataUrl] that is [null]. *)
Inductive Uploaded :=
| Loaded (image : OriginalImage)
| Unloaded (file : File).

Coercion Loaded : OriginalImage >-> Uploaded.

(** The type expected of [Some x] is used to elaborate [x], so that an
    [OriginalImage] can be written where the cell's content is expected. *)
Arguments Some {A} & a.

Global Instance File_eq_dec : EqDecision File.
Proof. solve_decision. Defined.
Global Instance GeneratedImage_eq_dec : EqDecision GeneratedImage.
Proof. solve_decision. Defined.
Global Instance OriginalImage_eq_dec : EqDecision OriginalImage.
Proof. solve_decision. Defined.
Global Instance Uploaded_eq_dec : EqDecision Uploaded.
Proof. solve_decision. Defined.

(** [originalImage.file] *)
Definition uploadedFile (u : Uploaded) : File :=
  match u with
  | Loaded image => file image
  | Unloaded file => file
  end.

(** ** Archive entry names ([handleDownloadAll], the [fileName] binding) *)

(** [`${img.expression.replace(/[\(\)]/g, '').replace(/\s+/g, '_')}.png`] *)
Definition fileName (expression : Js.str) : Js.str :=
  Js.replaceAll Js.spacePattern «"_"»
    (Js.replaceAll Js.parenPattern «""» expression) ++ «".png"».

(** The derivation in the words of the specification: parenthesis
    characters removed, every run of white space replaced by one
    underscore, [.png] appended. *)
Module FileNameSpec.

Definition withoutParens (s : Js.str) : Js.str :=
  filter (λ c, c ≠ 40%N ∧ c ≠ 41%N) s.

(** The maximal blocks of a string: runs of white space ([true]) and runs
    of other units ([false]), in order. *)
Fixpoint blocks (s : Js.str) : list (bool * Js.str) :=
  match s with
  | [] => []
  | c :: r =>
      match blocks r with
      | (b, run) :: rest =>
          if bool_decide (b = Js.isWhiteSpace c) then (b, c :: run) :: rest
          else (Js.isWhiteSpace c, [c]) :: (b, run) :: rest
      | [] => [(Js.isWhiteSpace c, [c])]
      end
  end.

Definition underscoreRuns (s : Js.str) : Js.str :=
  mjoin ((λ blk : bool * Js.str, if blk.1 then «"_"» else blk.2) <$> blocks s).

Definition fileName (expression : Js.str) : Js.str :=
  underscoreRuns (withoutParens expression) ++ «".png"».

End FileNameSpec.

(** ** JavaScript numbers *)

Module Number.

Definition prec : Z := 53.
Definition emax : Z := 1024.

(** The Number value of a counter or of an integer literal. *)
Definition ofNat (n : nat) : spec_float :=
  binary_normalize prec emax (Z.of_nat n) 0 false.

Definition div : spec_float → spec_float → spec_float := SFdiv prec emax.
Definition mul : spec_float → spec_float → spec_float := SFmul prec emax.

(** [Math.round(x)]: the integer closest to [x], ties towards +∞, that is
    ⌊x + 1/2⌋ on the exact value [±m·2^e] of a finite [x]. The result is
    kept as an integer; [NaN] and the infinities, which [Math.round]
    returns unchanged, are not integers and are mapped to [0] (the
    quotient rounded by the source has a positive divisor whenever it is
    computed). *)
Definition round (x : spec_float) : Z :=
  match x with
  | S754_finite s m e =>
      let sm := if s then Z.neg m else Z.pos m in
      if (0 <=? e)%Z then (sm * 2 ^ e)%Z
      else ((2 * sm + 2 ^ (- e)) `div` 2 ^ (1 - e))%Z
  | _ => 0%Z
  end.

End Number.

(** ** The archive library

    [JSZip] is an external library ([declare const JSZip: any]); the
    handler needs its version 3 ([generateAsync]). An instance holds one
    entry per name. [file(name, data, {base64: true})] adds the entry or
    replaces the one of that name, and records the data it was given
    ([undefined] when the source had none) for decoding; with the
    library's default [createFolders], it first adds an entry for every
    folder on the path of [name] that the instance does not have yet.
    The data are decoded when the archive is generated. *)

Module JSZip.

Inductive entry :=
| Folder
| Data (data : option Js.str).

Abbreviation t := (gmap Js.str entry).

(** [new JSZip()] *)
Definition new : gmap Js.str entry := ∅.

(** [path.lastIndexOf("/")], counted from 1 ([0]: no slash). *)
Fixpoint lastSlash (path : Js.str) : nat :=
  match path with
  | [] => 0
  | c :: r =>
      match lastSlash r with
      | S i => S (S i)
      | O => if (c =? 47)%N then 1 else 0
      end
  end.

(** The path without its last unit when that is a slash. *)
Fixpoint dropTrailingSlash (path : Js.str) : Js.str :=
  match path with
  | [] => []
  | [c] => if (c =? 47)%N then [] else [c]
  | c :: r => c :: dropTrailingSlash r
  end.

(** [parentFolder(path)]: what precedes the last slash of the path taken
    without a trailing slash, when that slash is not the first unit; the
    empty string otherwise. *)
Definition parentFolder (path : Js.str) : Js.str :=
  let path := dropTrailingSlash path in
  match lastSlash path with
  | S (S i) => take (S i) path
  | _ => []
  end.

(** [forceTrailingSlash(path)] *)
Definition forceTrailingSlash (path : Js.str) : Js.str :=
  match last path with
  | Some 47%N => path
  | _ => path ++ «"/"»
  end.

(** [folderAdd(name, true)]: nothing when the folder is there, otherwise
    its own parent folders and then the folder. [fuel] bounds the depth of
    the path. *)
Fixpoint folderAdd (fuel : nat) (name : Js.str) (zip : gmap Js.str entry)
    : gmap Js.str entry :=
  match fuel with
  | O => zip
  | S fuel' =>
      let name := forceTrailingSlash name in
      match zip !! name with
      | Some _ => zip
      | None =>
          <[name := Folder]>
            (match parentFolder name with
             | [] => zip
             | parent => folderAdd fuel' parent zip
             end)
      end
  end.

(** [zip.file(name, data, { base64: true })] *)
Definition file (name : Js.str) (data : option Js.str) (zip : gmap Js.str entry)
    : gmap Js.str entry :=
  <[name := Data data]>
    (match parentFolder name with
     | [] => zip
     | parent => folderAdd (length name) parent zip
     end).

(** The bytes an entry stores, for the base64 decoder of the library
    ([None] from the decoder: the text is refused). A folder has none, and
    an entry made without data or with the empty string ([!data ||
    data.length === 0]) is empty and is not decoded. *)
Definition bytes (decode : Js.str → option (list Byte.byte)) (e : entry)
    : option (list Byte.byte) :=
  match e with
  | Data (Some (c :: data)) => decode (c :: data)
  | _ => Some []
  end.

(** [zip.generateAsync(...)]: the archive, as the bytes stored under each
    name. The promise rejects ([None]) when the data of some entry are
    refused by the decoder. *)
Definition generateAsync (decode : Js.str → option (list Byte.byte))
    (zip : gmap Js.str entry) : option (gmap Js.str (list Byte.byte)) :=
  if bool_decide (map_Forall (λ _ e, is_Some (bytes decode e)) zip)
  then Some ((λ e, default [] (bytes decode e)) <$> zip)
  else None.

End JSZip.

(** A base64 decoder (RFC 4648, padded), to run the archive on examples. *)
Module Base64.

Definition sextet (c : N) : option N :=
  if ((65 <=? c) && (c <=? 90))%N then Some (c - 65)%N
  else if ((97 <=? c) && (c <=? 122))%N then Some (c - 71)%N
  else if ((48 <=? c) && (c <=? 57))%N then Some (c + 4)%N
  else if (c =? 43)%N then Some 62%N
  else if (c =? 47)%N then Some 63%N
  else None.

Definition byte (n : N) : Byte.byte :=
  default Byte.x00 (Byte.of_N (n `mod` 256)%N).

Definition quantum (a b c d : N) : option (list Byte.byte) :=
  x ← sextet a; y ← sextet b;
  let hi := (x * 4 + y `div` 16)%N in
  if (c =? 61)%N then
    if (d =? 61)%N then Some [byte hi] else None
  else
    z ← sextet c;
    let mid := ((y `mod` 16) * 16 + z `div` 4)%N in
    if (d =? 61)%N then Some [byte hi; byte mid]
    else u ← sextet d; Some [byte hi; byte mid; byte ((z `mod` 4) * 64 + u)%N].

Fixpoint decode (s : Js.str) : option (list Byte.byte) :=
  match s with
  | [] => Some []
  | a :: b :: c :: d :: r =>
      q ← quantum a b c d; rest ← decode r; Some (q ++ rest)
  | _ => None
  end.

End Base64.

(** ** Component state and the calls a handler makes *)

(** The five [useState] cells of [App]. [progress] holds the integers
    given to [setProgress]. *)
Record State := {
  originalImage : option Uploaded;
  generatedImages : list GeneratedImage;
  isLoading : bool;
  error : option Js.str;
  progress : Z
}.

(** The initial values of the [useState] calls. *)
Definition initialState : State :=
  {| originalImage := None; generatedImages := []; isLoading := false;
     error := None; progress := 0 |}.

(** What a handler does besides computing: it calls state setters, starts
    a file read, sends a generation request, or offers an archive for
    download. *)
Inductive Call :=
| setOriginalImage (v : option Uploaded)
| setGeneratedImages (v : list GeneratedImage)
| setIsLoading (v : bool)
| setError (v : option Js.str)
| setProgress (v : Z)
| readAsDataURL (f : File)
| generateExpression (base64Data : option Js.str) (mimeType expression : Js.str)
| download (filename : Js.str) (zip : gmap Js.str JSZip.entry).

(** The effect of one call on the state cells. *)
Definition assign (c : Call) (s : State) : State :=
  match c with
  | setOriginalImage v =>
      {| originalImage := v; generatedImages := generatedImages s;
         isLoading := isLoading s; error := error s; progress := progress s |}
  | setGeneratedImages v =>
      {| originalImage := originalImage s; generatedImages := v;
         isLoading := isLoading s; error := error s; progress := progress s |}
  | setIsLoading v =>
      {| originalImage := originalImage s; generatedImages := generatedImages s;
         isLoading := v; error := error s; progress := progress s |}
  | setError v =>
      {| originalImage := originalImage s; generatedImages := generatedImages s;
         isLoading := isLoading s; error := v; progress := progress s |}
  | setProgress v =>
      {| originalImage := originalImage s; generatedImages := generatedImages s;
         isLoading := isLoading s; error := error s; progress := v |}
  | readAsDataURL _ | generateExpression _ _ _ | download _ _ => s
  end.

(** A rejection reason that is neither [null] nor [undefined], as far as
    the handler can tell: its [message] property, [None] when that is
    [undefined] or [null] (an [Error] made without a message has the
    empty string; a reason that is itself a string or a number has no
    such property). The message of an error is a string; a reason whose
    [message] is of another type is not covered. *)
Record JsError := { message : option Js.str }.

(** The reason a generation call rejects with: [null] or [undefined], for
    which reading [err.message] throws, or a value with properties. *)
Inductive Reason :=
| Nullish
| Thrown (err : JsError).

Coercion Thrown : JsError >-> Reason.

(** How one call of [generateExpression] settles. *)
Inductive Outcome :=
| Resolve (newBase64 : Js.str)
| Reject (reason : Reason).

(** The state of one of the promises given to [Promise.all]. *)
Inductive Promise :=
| Pending
| Fulfilled (value : GeneratedImage)
| Rejected (reason : Reason).

(** The closure of one invocation of [handleGenerateExpressions]: its
    counter, its promises in catalog order, and whether it is still
    suspended at [await Promise.all(promises)]. *)
Record Batch := {
  completedCount : nat;
  promises : list Promise;
  awaiting : bool
}.

(** What happens to the application: user actions invoke the handlers, and
    pending file reads and generation calls complete, in any order. A read
    ends with a result ([LoadEnd]) or, when it has failed, with
    [reader.result] still [null] ([LoadEndFailed]). A click on the
    download button is [DownloadAll] when [zip.generateAsync] fulfils and
    [DownloadAllRejected] when it rejects; which of the two happens is the
    library's decision ([JSZip.generateAsync], for its decoder). *)
Inductive Event :=
| FileChange (files : list File)
| LoadEnd (read : nat) (result : Js.str)
| LoadEndFailed (read : nat)
| ResetClick
| GenerateExpressions
| Settle (batch index : nat) (o : Outcome)
| DownloadAll
| DownloadAllRejected.

(** The component together with what is in flight and what it has done so
    far: the batches started (oldest first), the file reads not yet ended,
    and every call made, in order. *)
Record World := {
  state : State;
  batches : list Batch;
  reading : list File;
  calls : list Call
}.

Definition initialWorld : World :=
  {| state := initialState; batches := []; reading := []; calls := [] |}.

(** Make the calls [cs] in order. *)
Definition perform (cs : list Call) (w : World) : World :=
  {| state := foldl (λ s c, assign c s) (state w) cs;
     batches := batches w;
     reading := reading w ++ omap (λ c, match c with readAsDataURL f => Some f | _ => None end) cs;
     calls := calls w ++ cs |}.

Definition withBatches (bs : list Batch) (w : World) : World :=
  {| state := state w; batches := bs; reading := reading w; calls := calls w |}.

Definition withReading (fs : list File) (w : World) : World :=
  {| state := state w; batches := batches w; reading := fs; calls := calls w |}.

(** ** The handlers *)

(** [handleFileChange] of [ImageUploader]; [files] is [event.target.files]. *)
Definition handleFileChange (files : list File) : list Call :=
  match files !! 0 with
  | Some file =>
      if Js.startsWith «"image/"» (type file) then [readAsDataURL file] else []
  | None => []
  end.

(** [handleImageUpload] *)
Definition handleImageUpload (image : Uploaded) : list Call :=
  [setOriginalImage (Some image); setGeneratedImages []; setError None; setProgress 0].

(** [reader.onloadend], with [onImageUpload = handleImageUpload];
    [result] is [reader.result], [None] for [null]. *)
Definition onloadend (file : File) (result : option Js.str) : list Call :=
  handleImageUpload
    (match result with
     | Some dataUrl => Loaded {| file := file; dataUrl := dataUrl |}
     | None => Unloaded file
     end).

(** [handleReset] *)
Definition handleReset : list Call :=
  [setOriginalImage None; setGeneratedImages []; setError None; setProgress 0].

(** The archive [handleDownloadAll] builds with [forEach]. *)
Definition addImage (zip : gmap Js.str JSZip.entry) (img : GeneratedImage)
    : gmap Js.str JSZip.entry :=
  let base64Data := Js.split 44 (base64 img) !! 1 in
  JSZip.file (fileName (expression img)) base64Data zip.

Definition archiveOf (images : list GeneratedImage) : gmap Js.str JSZip.entry :=
  foldl addImage JSZip.new images.

(** [handleDownloadAll], for the [generatedImages] of the current render,
    when [zip.generateAsync] fulfils (when it rejects, the handler stops at
    its [await] and nothing is offered). *)
Definition handleDownloadAll (s : State) : list Call :=
  match generatedImages s with
  | [] => []
  | _ :: _ => [download «"character_expressions.zip"» (archiveOf (generatedImages s))]
  end.

(** [err.message || 'An unknown error occurred during image generation.']
    for a reason that has properties: an absent or empty message is
    falsy. *)
Definition errorText (err : JsError) : Js.str :=
  match message err with
  | Some (c :: m) => c :: m
  | _ => «"An unknown error occurred during image generation."»
  end.

(** The [catch] and [finally] clauses of [handleGenerateExpressions] for a
    rejection with [reason]: for [null] and [undefined], [err.message]
    throws before [setError] is called, and [finally] still runs. *)
Definition report (reason : Reason) : list Call :=
  match reason with
  | Thrown err => [setError (Some (errorText err)); setIsLoading false]
  | Nullish => [setIsLoading false]
  end.

(** The fulfilment values of [promises] when none is pending or rejected:
    what [Promise.all] then resolves with, in the order of its argument. *)
Definition values (ps : list Promise) : option (list GeneratedImage) :=
  mapM (λ p, match p with Fulfilled v => Some v | _ => None end) ps.

(** The rest of [handleGenerateExpressions] once [Promise.all] has
    fulfilled: the [try] body after [await], then [finally]. *)
Definition resume (b : Batch) : list Call * Batch :=
  if awaiting b then
    match values (promises b) with
    | Some results =>
        ([setGeneratedImages results; setIsLoading false],
         {| completedCount := completedCount b; promises := promises b;
            awaiting := false |})
    | None => ([], b)
    end
  else ([], b).

Section Catalog.

(** The catalog of [constants.ts]: a parameter of the development. *)
Variable EXPRESSIONS_TO_GENERATE : list Js.str.

Definition totalExpressions : nat := length EXPRESSIONS_TO_GENERATE.

(** [Math.round((completedCount / totalExpressions) * 100)] *)
Definition percent (completedCount : nat) : Z :=
  Number.round
    (Number.mul
       (Number.div (Number.ofNat completedCount) (Number.ofNat totalExpressions))
       (Number.ofNat 100)).

(** [handleGenerateExpressions] up to its [await]: the guard, the resets,
    one request per catalog entry, and the closure it leaves behind. With
    an empty catalog [Promise.all([])] is fulfilled at once. When the
    [dataUrl] is [null], [split] throws after the resets and outside the
    [try]: no request is made, nothing is left behind, and [finally] does
    not run. *)
Definition handleGenerateExpressions (s : State) : list Call * option Batch :=
  match originalImage s with
  | None => ([], None)
  | Some (Unloaded _) =>
      ([setIsLoading true; setError None; setGeneratedImages []; setProgress 0],
       None)
  | Some (Loaded image) =>
      let base64Data := Js.split 44 (dataUrl image) !! 1 in
      let mimeType := type (file image) in
      let '(cs, b) :=
        resume {| completedCount := 0;
                  promises := replicate totalExpressions Pending;
                  awaiting := true |} in
      ([setIsLoading true; setError None; setGeneratedImages []; setProgress 0]
         ++ (generateExpression base64Data mimeType <$> EXPRESSIONS_TO_GENERATE)
         ++ cs,
       Some b)
  end.

(** The call for [expression] settles: the [then] callback runs on
    fulfilment, and [Promise.all] rejects with the first rejection, which
    the [catch] clause reports. The callback and the continuation of the
    [await] run as microtasks of the same turn, before another call
    settles, hence as one step. *)
Definition settle (index : nat) (expression : Js.str) (o : Outcome) (b : Batch)
    : list Call * Batch :=
  match o with
  | Resolve newBase64 =>
      let count := S (completedCount b) in
      let value :=
        {| expression := expression;
           base64 := «"data:image/png;base64,"» ++ newBase64 |} in
      let '(cs, b') :=
        resume {| completedCount := count;
                  promises := <[index := Fulfilled value]> (promises b);
                  awaiting := awaiting b |} in
      (setProgress (percent count) :: cs, b')
  | Reject reason =>
      (if awaiting b then report reason else [],
       {| completedCount := completedCount b;
          promises := <[index := Rejected reason]> (promises b);
          awaiting := false |})
  end.

(** One event. [None]: the event cannot happen (no such pending read or
    pending call; no archive whose generation could fail). *)
Definition step (w : World) (ev : Event) : option World :=
  match ev with
  | FileChange files => Some (perform (handleFileChange files) w)
  | LoadEnd k result =>
      file ← reading w !! k;
      Some (perform (onloadend file (Some result))
              (withReading (delete k (reading w)) w))
  | LoadEndFailed k =>
      file ← reading w !! k;
      Some (perform (onloadend file None) (withReading (delete k (reading w)) w))
  | ResetClick => Some (perform handleReset w)
  | GenerateExpressions =>
      let '(cs, started) := handleGenerateExpressions (state w) in
      Some (perform cs (withBatches (batches w ++ option_list started) w))
  | Settle r i o =>
      b ← batches w !! r;
      p ← promises b !! i;
      expression ← EXPRESSIONS_TO_GENERATE !! i;
      match p with
      | Pending =>
          let '(cs, b') := settle i expression o b in
          Some (perform cs (withBatches (<[r := b']> (batches w)) w))
      | _ => None
      end
  | DownloadAll => Some (perform (handleDownloadAll (state w)) w)
  | DownloadAllRejected =>
      match generatedImages (state w) with
      | [] => None
      | _ :: _ => Some w
      end
  end.

Fixpoint run (w : World) (evs : list Event) : option World :=
  match evs with
  | [] => Some w
  | ev :: evs' => w' ← step w ev; run w' evs'
  end.

(** The calls made by the events [evs] from [w] on. *)
Definition callsDuring (w : World) (evs : list Event) : option (list Call) :=
  w' ← run w evs; Some (drop (length (calls w)) (calls w')).

End Catalog.

(** ** Schedules and expected values, for the statements below *)

(** The calls [order] of batch [r] settle one after the other, call [i]
    with outcome [outs i]. *)
Definition settles (r : nat) (outs : nat → Outcome) (order : list nat) : list Event :=
  (λ i, Settle r i (outs i)) <$> order.

Definition isResolve (o : Outcome) : bool :=
  match o with Resolve _ => true | Reject _ => false end.

(** How many of the calls [order] resolve. *)
Definition resolved (outs : nat → Outcome) (order : list nat) : nat :=
  length (filter (λ i, isResolve (outs i) = true) order).

(** What the promise of a call becomes when the call settles with [o]. *)
Definition promiseOf (expression : Js.str) (o : Outcome) : Promise :=
  match o with
  | Resolve newBase64 =>
      Fulfilled {| expression := expression;
                   base64 := «"data:image/png;base64,"» ++ newBase64 |}
  | Reject reason => Rejected reason
  end.

(** One image per catalog entry, in catalog order, entry [i] carrying the
    payload [payloads i]. *)
Definition resultsOf (catalog : list Js.str) (payloads : nat → Js.str)
    : list GeneratedImage :=
  imap (λ i e, {| expression := e;
                  base64 := «"data:image/png;base64,"» ++ payloads i |}) catalog.

(** The values given to [setProgress] among the calls [cs], in order. *)
Definition emitted (cs : list Call) : list Z :=
  omap (λ c, match c with setProgress v => Some v | _ => None end) cs.

(** [num / den] rounded to the nearest integer, halves up. *)
Definition roundHalfUp (num den : Z) : Z := ((2 * num + den) `div` (2 * den))%Z.

(** A string with everything up to and including its first [sep] removed;
    [None] when it has no [sep]. *)
Fixpoint afterFirst (sep : N) (s : Js.str) : option Js.str :=
  match s with
  | [] => None
  | c :: r => if (c =? sep)%N then Some r else afterFirst sep r
  end.

(** A catalog of eight labels and an uploaded image, for examples. *)
Definition sampleCatalog : list Js.str :=
  [«"Happy"»; «"Sad"»; «"Angry"»; «"Surprised (Gasp)"»;
   «"Disgusted"»; «"Fearful"»; «"Neutral"»; «"Laughing"»].

Definition sampleImage : OriginalImage :=
  {| file := {| name := «"hero.jpg"»; type := «"image/jpeg"» |};
     dataUrl := «"data:image/jpeg;base64,/9j/"» |}.

Definition sampleWorld : World :=
  {| state := {| originalImage := Some sampleImage; generatedImages := [];
                 isLoading := false; error := None; progress := 0 |};
     batches := []; reading := []; calls := [] |}.

(** *** The course of one batch

    The batch and the calls of [handleGenerateExpressions] after the calls
    [past] (latest first) have settled, written out so that a run can be
    compared with them. *)

Definition payload (o : Outcome) : Js.str :=
  match o with Resolve newBase64 => newBase64 | Reject _ => [] end.

Definition promisesAfter (catalog : list Js.str) (outs : nat → Outcome)
    (past : list nat) : list Promise :=
  imap (λ i e, if bool_decide (i ∈ past) then promiseOf e (outs i) else Pending)
    catalog.

(** The batch is suspended as long as every settled call has resolved and
    some call is still pending. *)
Definition batchAfter (catalog : list Js.str) (outs : nat → Outcome)
    (past : list nat) : Batch :=
  {| completedCount := resolved outs past;
     promises := promisesAfter catalog outs past;
     awaiting := bool_decide (resolved outs past = length past)
                 && bool_decide (length past < length catalog) |}.

(** The calls made when call [i] settles after the calls [past]. *)
Definition callsAt (catalog : list Js.str) (outs : nat → Outcome)
    (past : list nat) (i : nat) : list Call :=
  match outs i with
  | Resolve _ =>
      setProgress (percent catalog (S (resolved outs past)))
      :: (if bool_decide (resolved outs past = length past)
             && bool_decide (S (length past) = length catalog)
          then [setGeneratedImages (resultsOf catalog (λ j, payload (outs j)));
                setIsLoading false]
          else [])
  | Reject reason =>
      if awaiting (batchAfter catalog outs past) then report reason else []
  end.

Fixpoint callsFor (catalog : list Js.str) (outs : nat → Outcome)
    (past todo : list nat) : list Call :=
  match todo with
  | [] => []
  | i :: rest =>
      callsAt catalog outs past i ++ callsFor catalog outs (i :: past) rest
  end.

(** The error cell after the report of a rejection with [reason], when it
    held [before]. *)
Definition reported (reason : Reason) (before : option Js.str) : option Js.str :=
  match reason with
  | Thrown err => Some (errorText err)
  | Nullish => before
  end.

(** The calls of [handleGenerateExpressions] before it suspends. *)
Definition startCalls (catalog : list Js.str) (image : OriginalImage) : list Call :=
  [setIsLoading true; setError None; setGeneratedImages []; setProgress 0]
  ++ (generateExpression (Js.split 44 (dataUrl image) !! 1) (type (file image))
        <$> catalog)
  ++ (if bool_decide (length catalog = 0)
      then [setGeneratedImages []; setIsLoading false] else []).

Definition isSetProgress (c : Call) : Prop :=
  match c with setProgress _ => True | _ => False end.

(** The calls of the batch handlers: neither the image cell, nor a file
    read, nor a download. *)
Definition isBatchCall (c : Call) : Prop :=
  match c with
  | setOriginalImage _ | readAsDataURL _ | download _ _ => False
  | _ => True
  end.

(** A batch that has failed while calls are still out: the third call
    rejects after two have resolved. *)
Definition failedWorld : World :=
  default sampleWorld
    (run sampleCatalog sampleWorld
       (GenerateExpressions
        :: settles 0
             (λ i, if (i =? 2)%nat
                   then Reject {| message := Some «"overloaded"» |}
                   else Resolve «"AA=="»)
             [0; 1; 2])).

(** A download offers an archive with at least one entry. *)
Definition downloadsSomething (c : Call) : Prop :=
  match c with download _ zip => zip ≠ ∅ | _ => True end.

(** Files being read and the uploaded image are of an image type. *)
Definition imagesOnly (w : World) : Prop :=
  Forall (λ f, «"image/"» `prefix_of` type f) (reading w)
  ∧ ∀ img, originalImage (state w) = Some img →
           «"image/"» `prefix_of` type (uploadedFile img).

(** The batches started before index [r0] have left their [await], and
    every generated image on display is a fulfilment value of a batch
    started at index [r0] or later. *)
Definition fromBatchesSince (r0 : nat) (w : World) : Prop :=
  r0 ≤ length (batches w)
  ∧ (∀ r b, r < r0 → batches w !! r = Some b → awaiting b = false)
  ∧ ∀ img, img ∈ generatedImages (state w) →
      ∃ r b, r0 ≤ r ∧ batches w !! r = Some b ∧ Fulfilled img ∈ promises b.

(** ** What is rendered (the JSX of [App]) *)

(** The conditional blocks of the markup [App] returns: which of them are
    rendered, and the state of the Generate button. *)
Record View := {
  showsError : bool;
  showsUploader : bool;
  showsOriginal : bool;
  generateDisabled : bool;
  generateLabel : Js.str;
  showsProgress : bool;
  showsResults : bool
}.

(** [error && ...]: [null] and the empty string are falsy. *)
Definition truthy (e : option Js.str) : bool :=
  match e with Some (_ :: _) => true | _ => false end.

Definition render (s : State) : View :=
  {| showsError := truthy (error s);
     showsUploader := bool_decide (originalImage s = None);
     showsOriginal := bool_decide (originalImage s ≠ None);
     generateDisabled := isLoading s;
     generateLabel :=
       if isLoading s then «"Generating..."» else «"Generate 8 Expressions"»;
     showsProgress := isLoading s;
     showsResults :=
       bool_decide (0 < length (generatedImages s)) && negb (isLoading s) |}.

(** Whether the user can cause [ev] through what is rendered: the file
    input belongs to the uploader, the two buttons to the block of the
    original image (Generate is disabled while loading), the download
    button to the results. Reads and generation calls end on their own. *)
Definition offered (s : State) (ev : Event) : bool :=
  match ev with
  | FileChange _ => showsUploader (render s)
  | ResetClick => showsOriginal (render s)
  | GenerateExpressions =>
      showsOriginal (render s) && negb (generateDisabled (render s))
  | DownloadAll | DownloadAllRejected => showsResults (render s)
  | LoadEnd _ _ | LoadEndFailed _ | Settle _ _ _ => true
  end.

(** A run in which every user action goes through a rendered control. *)
Fixpoint userRun (catalog : list Js.str) (w : World) (evs : list Event)
    : option World :=
  match evs with
  | [] => Some w
  | ev :: evs' =>
      if offered (state w) ev
      then w' ← step catalog w ev; userRun catalog w' evs'
      else None
  end.

(** ** Further notions for the statements below *)

(** The arguments of the [generateExpression] calls among [cs], in order. *)
Definition requests (cs : list Call) : list (option Js.str * Js.str * Js.str) :=
  omap (λ c, match c with
             | generateExpression base64Data mimeType expression =>
                 Some (base64Data, mimeType, expression)
             | _ => None
             end) cs.

(** The events of one batch, as opposed to what the user and the file
    reader do. *)
Definition isBatchEvent (ev : Event) : Prop :=
  match ev with GenerateExpressions | Settle _ _ _ => True | _ => False end.

(** The end of a read that has failed. *)
Definition isFailedRead (ev : Event) : Prop :=
  match ev with LoadEndFailed _ => True | _ => False end.

Global Instance isFailedRead_dec (ev : Event) : Decision (isFailedRead ev).
Proof. destruct ev; cbn; apply _. Defined.

Definition isFulfilled (p : Promise) : bool :=
  match p with Fulfilled _ => true | _ => false end.

Definition fulfilledCount (ps : list Promise) : nat :=
  length (filter (λ p, isFulfilled p = true) ps).

(** The batches still suspended at their [await]. *)
Definition suspended (bs : list Batch) : nat :=
  length (filter (λ b, awaiting b = true) bs).

(** A batch as [handleGenerateExpressions] keeps it: one promise per
    catalog entry, the counter at the number of fulfilled promises, and
    the value of promise [i] labelled with catalog entry [i] and encoded
    as a PNG data URL. *)
Definition batchOk (catalog : list Js.str) (b : Batch) : Prop :=
  length (promises b) = length catalog
  ∧ completedCount b = fulfilledCount (promises b)
  ∧ ∀ i img, promises b !! i = Some (Fulfilled img) →
      catalog !! i = Some (expression img)
      ∧ «"data:image/png;base64,"» `prefix_of` base64 img.

(** Nothing, or one PNG data URL per catalog entry in catalog order. *)
Definition resultsShaped (catalog : list Js.str) (images : list GeneratedImage)
    : Prop :=
  images = []
  ∨ (expression <$> images = catalog
     ∧ Forall (λ img, «"data:image/png;base64,"» `prefix_of` base64 img) images).

Definition downloadOk (catalog : list Js.str) (c : Call) : Prop :=
  match c with
  | download filename zip =>
      filename = «"character_expressions.zip"»
      ∧ ∃ images, images ≠ [] ∧ expression <$> images = catalog
                  ∧ zip = archiveOf images
  | _ => True
  end.

Definition sound (catalog : list Js.str) (w : World) : Prop :=
  Forall (batchOk catalog) (batches w)
  ∧ resultsShaped catalog (generatedImages (state w))
  ∧ (progress (state w) = 0%Z
     ∨ ∃ k, 1 ≤ k ≤ length catalog ∧ progress (state w) = percent catalog k)
  ∧ Forall (downloadOk catalog) (calls w).

(** A code unit that is neither white space nor a parenthesis. *)
Definition plainUnit (c : N) : Prop :=
  Js.isWhiteSpace c = false ∧ Js.isParen c = false.

(** A whole session through the rendered controls: select a file, the read
    ends, generate, the eight calls resolve out of order, download. *)
Definition sampleSession : list Event :=
  [FileChange [file sampleImage]; LoadEnd 0 (dataUrl sampleImage);
   GenerateExpressions]
  ++ settles 0 (λ i, Resolve (Js.lit "AA==" ++ [N.of_nat i])) [3; 1; 0; 2; 7; 6; 5; 4]
  ++ [DownloadAll].

(** * Properties *)

(** ** Archive entry names *)

Section FileName.

Implicit Types (s r : Js.str) (c : N).

Lemma isParen_spec c : Js.isParen c = false ↔ c ≠ 40%N ∧ c ≠ 41%N.
Proof.
  unfold Js.isParen. rewrite orb_false_iff, !N.eqb_neq. tauto.
Qed.

(** Replacing every parenthesis by the empty string filters them out. *)
Lemma replaceAll_parens s :
  Js.replaceAll Js.parenPattern «""» s = FileNameSpec.withoutParens s.
Proof.
  unfold Js.replaceAll, FileNameSpec.withoutParens.
  induction s as [|c r IH]; [done|].
  cbn [Js.replaceFrom Js.parenPattern].
  destruct (Js.isParen c) eqn:Hc.
  - rewrite filter_cons_False; [exact IH|].
    intros Hn. apply isParen_spec in Hn. congruence.
  - rewrite filter_cons_True by (by apply isParen_spec). by rewrite IH.
Qed.

Lemma blocks_head c r :
  ∃ run rest, FileNameSpec.blocks (c :: r) = (Js.isWhiteSpace c, c :: run) :: rest.
Proof.
  cbn [FileNameSpec.blocks].
  destruct (FileNameSpec.blocks r) as [|[b run] rest]; [by eexists _, _|].
  case_bool_decide; subst; by eexists _, _.
Qed.

(** A unit that is not white space is kept by the specification's
    derivation. *)
Lemma underscoreRuns_other c r :
  Js.isWhiteSpace c = false →
  FileNameSpec.underscoreRuns (c :: r) = c :: FileNameSpec.underscoreRuns r.
Proof.
  intros Hc. unfold FileNameSpec.underscoreRuns. cbn [FileNameSpec.blocks].
  destruct (FileNameSpec.blocks r) as [|[b run] rest] eqn:Hr.
  - rewrite Hc. reflexivity.
  - case_bool_decide as Hb.
    + subst b. rewrite !fmap_cons. cbn [fst snd]. rewrite Hc. reflexivity.
    + rewrite Hc. reflexivity.
Qed.

(** A white-space unit and the run that follows it give one underscore. *)
Lemma underscoreRuns_space c r :
  Js.isWhiteSpace c = true →
  FileNameSpec.underscoreRuns (c :: r)
  = «"_"» ++ FileNameSpec.underscoreRuns (drop (Js.spaceRun r) r).
Proof.
  revert c. induction r as [|d r IH]; intros c Hc.
  - unfold FileNameSpec.underscoreRuns. cbn. rewrite Hc. reflexivity.
  - cbn [Js.spaceRun]. destruct (Js.isWhiteSpace d) eqn:Hd.
    + cbn [drop]. rewrite <- (IH d Hd).
      destruct (blocks_head d r) as (run & rest & Hblk).
      unfold FileNameSpec.underscoreRuns.
      change (FileNameSpec.blocks (c :: d :: r))
        with (match FileNameSpec.blocks (d :: r) with
              | (b, run) :: rest =>
                  if bool_decide (b = Js.isWhiteSpace c) then (b, c :: run) :: rest
                  else (Js.isWhiteSpace c, [c]) :: (b, run) :: rest
              | [] => [(Js.isWhiteSpace c, [c])]
              end).
      rewrite Hblk, Hd, Hc. rewrite bool_decide_eq_true_2 by done.
      reflexivity.
    + cbn [drop].
      destruct (blocks_head d r) as (run & rest & Hblk).
      unfold FileNameSpec.underscoreRuns.
      change (FileNameSpec.blocks (c :: d :: r))
        with (match FileNameSpec.blocks (d :: r) with
              | (b, run) :: rest =>
                  if bool_decide (b = Js.isWhiteSpace c) then (b, c :: run) :: rest
                  else (Js.isWhiteSpace c, [c]) :: (b, run) :: rest
              | [] => [(Js.isWhiteSpace c, [c])]
              end).
      rewrite Hblk, Hd, Hc. rewrite bool_decide_eq_false_2 by done.
      reflexivity.
Qed.

(** The scan of [replace(/\s+/g, '_')], resumed inside a run. *)
Lemma replaceFrom_spaces s :
  ∀ skip, skip ≤ Js.spaceRun s →
    Js.replaceFrom Js.spacePattern «"_"» skip s
    = FileNameSpec.underscoreRuns (drop skip s).
Proof.
  induction s as [|c r IH]; intros skip Hskip.
  - by destruct skip.
  - cbn [Js.spaceRun] in Hskip. destruct skip as [|k].
    + cbn [Js.replaceFrom drop]. unfold Js.spacePattern at 1. cbn [Js.spaceRun].
      destruct (Js.isWhiteSpace c) eqn:Hc.
      * rewrite IH by done. by rewrite underscoreRuns_space.
      * rewrite IH by lia. by rewrite underscoreRuns_other.
    + cbn [Js.replaceFrom drop]. destruct (Js.isWhiteSpace c); [|lia].
      apply IH. lia.
Qed.

Lemma replaceAll_spaces s :
  Js.replaceAll Js.spacePattern «"_"» s = FileNameSpec.underscoreRuns s.
Proof. unfold Js.replaceAll. rewrite replaceFrom_spaces by lia. done. Qed.

End FileName.

(** C4. For every expression label the entry name computed by
    [handleDownloadAll] is the label with the parenthesis characters
    removed, every run of white space replaced by a single underscore and
    [.png] appended; equal labels give equal names; the label
    ["Surprised (Gasp)"] gives [Surprised_Gasp.png] and ["Sad"] gives
    [Sad.png]. *)
Theorem fileName_derivation (label : Js.str) :
  fileName label = FileNameSpec.fileName label
  ∧ (∀ label' : Js.str, label' = label → fileName label' = fileName label)
  ∧ fileName «"Surprised (Gasp)"» = «"Surprised_Gasp.png"»
  ∧ fileName «"Sad"» = «"Sad.png"».
Proof.
  split; [|split; [|split]].
  - unfold fileName, FileNameSpec.fileName.
    by rewrite replaceAll_parens, replaceAll_spaces.
  - by intros label' ->.
  - reflexivity.
  - reflexivity.
Qed.

(** The derivation on a label with parentheses, tabs, an em space and a
    line feed. *)
Lemma fileName_derivation_witness :
  fileName (Js.lit "a ( ) b" ++ [9; 8195; 10]%N ++ «"c"») = «"a_b_c.png"»
  ∧ FileNameSpec.fileName (Js.lit "a ( ) b" ++ [9; 8195; 10]%N ++ «"c"»)
    = «"a_b_c.png"».
Proof.
  destruct (fileName_derivation (Js.lit "a ( ) b" ++ [9; 8195; 10]%N ++ «"c"»))
    as [H _].
  split; [reflexivity | rewrite <- H; reflexivity].
Defined.

(** ** Calls and the state *)

Section Calls.

Implicit Types (s : State) (cs : list Call) (w : World).

Lemma perform_nil w : perform [] w = w.
Proof. destruct w. unfold perform. cbn. by rewrite !app_nil_r. Qed.

(** Calls to [setProgress] change the progress cell only. *)
Lemma foldl_setProgress cs s :
  Forall isSetProgress cs →
  let s' := foldl (λ s c, assign c s) s cs in
  originalImage s' = originalImage s ∧ generatedImages s' = generatedImages s
  ∧ isLoading s' = isLoading s ∧ error s' = error s.
Proof.
  intros Hcs. revert s. induction Hcs as [|c cs Hc _ IH]; intros s; [done|].
  destruct c; try done. cbn [foldl]. apply (IH (assign (setProgress v) s)).
Qed.

(** Sending requests changes no cell. *)
Lemma foldl_requests (base64Data : option Js.str) (mimeType : Js.str)
    (labels : list Js.str) s :
  foldl (λ s c, assign c s) s (generateExpression base64Data mimeType <$> labels) = s.
Proof.
  revert s. induction labels as [|l labels IH]; intros s; [done|].
  cbn. rewrite IH. by destruct s.
Qed.

(** The report of a rejection clears the loading flag and sets the error,
    unless the reason has no properties to read. *)
Lemma foldl_report (reason : Reason) s :
  let s' := foldl (λ s c, assign c s) s (report reason) in
  originalImage s' = originalImage s ∧ generatedImages s' = generatedImages s
  ∧ isLoading s' = false ∧ progress s' = progress s
  ∧ error s' = reported reason (error s).
Proof. by destruct reason. Qed.

Lemma emitted_app cs1 cs2 : emitted (cs1 ++ cs2) = emitted cs1 ++ emitted cs2.
Proof. apply omap_app. Qed.

End Calls.

(** ** The course of one batch *)

Section BatchCourse.

Variable E : list Js.str.
Variable outs : nat → Outcome.

Implicit Types (past todo : list nat) (i j r : nat).

Lemma resolved_cons i past :
  resolved outs (i :: past)
  = if isResolve (outs i) then S (resolved outs past) else resolved outs past.
Proof.
  unfold resolved. rewrite filter_cons.
  destruct (decide _) as [H|H]; destruct (isResolve (outs i)); done.
Qed.

Lemma resolved_le past : resolved outs past ≤ length past.
Proof. apply length_filter. Qed.

Lemma resolved_all past :
  resolved outs past = length past →
  Forall (λ j, isResolve (outs j) = true) past.
Proof.
  induction past as [|i past IH]; [done|].
  rewrite resolved_cons. cbn [length]. pose proof (resolved_le past).
  destruct (isResolve (outs i)) eqn:Hi; intros Heq; [|lia].
  constructor; [done|]. apply IH. lia.
Qed.

(** Calls are indices of the catalog and settle once: counting them. *)
Lemma range_length past :
  NoDup past → Forall (λ j, j < length E) past → length past ≤ length E.
Proof.
  intros Hnd Hr. rewrite <- (length_seq (length E) 0).
  apply submseteq_length, NoDup_submseteq; [done|].
  intros x Hx. apply elem_of_seq. rewrite Forall_forall in Hr.
  specialize (Hr x Hx). lia.
Qed.

Lemma range_full past :
  NoDup past → Forall (λ j, j < length E) past → length past = length E →
  ∀ j, j < length E → j ∈ past.
Proof.
  intros Hnd Hr Hlen j Hj.
  assert (past ≡ₚ seq 0 (length E)) as Hp.
  { apply submseteq_length_Permutation; [|rewrite length_seq; lia].
    apply NoDup_submseteq; [done|].
    intros x Hx. apply elem_of_seq. rewrite Forall_forall in Hr.
    specialize (Hr x Hx). lia. }
  rewrite Hp. apply elem_of_seq. lia.
Qed.

Lemma range_missing past :
  length past < length E → ∃ j, j < length E ∧ j ∉ past.
Proof.
  intros Hlen.
  destruct (decide (Forall (λ j, j ∈ past) (seq 0 (length E)))) as [Hall|Hnot].
  - exfalso.
    assert (seq 0 (length E) ⊆+ past) as Hsub.
    { apply NoDup_submseteq; [apply NoDup_seq|].
      intros x Hx. by eapply Forall_forall in Hall. }
    apply submseteq_length in Hsub. rewrite length_seq in Hsub. lia.
  - apply not_Forall_Exists in Hnot; [|apply _].
    apply Exists_exists in Hnot as (j & Hj & Hn).
    exists j. apply elem_of_seq in Hj. split; [lia | done].
Qed.

Lemma promisesAfter_lookup past i :
  promisesAfter E outs past !! i
  = (λ e, if bool_decide (i ∈ past) then promiseOf e (outs i) else Pending)
      <$> E !! i.
Proof. apply list_lookup_imap. Qed.

Lemma promisesAfter_length past : length (promisesAfter E outs past) = length E.
Proof. apply length_imap. Qed.

Lemma promisesAfter_nil : promisesAfter E outs [] = replicate (length E) Pending.
Proof.
  apply list_eq. intros i. rewrite promisesAfter_lookup.
  destruct (decide (i < length E)) as [Hi|Hi].
  - rewrite lookup_replicate_2 by done.
    destruct (lookup_lt_is_Some_2 E i Hi) as [e ->]. done.
  - rewrite lookup_ge_None_2 by lia. symmetry.
    apply lookup_ge_None_2. rewrite length_replicate. lia.
Qed.

Lemma promisesAfter_insert past i e :
  E !! i = Some e →
  <[i := promiseOf e (outs i)]> (promisesAfter E outs past)
  = promisesAfter E outs (i :: past).
Proof.
  intros He. apply list_eq. intros j. destruct (decide (i = j)) as [<-|Hne].
  - rewrite list_lookup_insert_eq
      by (rewrite promisesAfter_length; by eapply lookup_lt_Some).
    rewrite promisesAfter_lookup, He. cbn.
    rewrite bool_decide_eq_true_2 by (by left). done.
  - rewrite list_lookup_insert_ne by done. rewrite !promisesAfter_lookup.
    destruct (E !! j); cbn; [|done]. f_equal.
    rewrite (bool_decide_ext (j ∈ i :: past) (j ∈ past)); [done|].
    rewrite elem_of_cons. split; [intros [->|Hin]; done | by right].
Qed.

Lemma values_imap (f : nat → Js.str → Promise) (g : nat → Js.str → GeneratedImage)
    (l : list Js.str) :
  (∀ i e, l !! i = Some e → f i e = Fulfilled (g i e)) →
  values (imap f l) = Some (imap g l).
Proof.
  revert f g. induction l as [|e l IH]; intros f g Hfg; [done|].
  rewrite !imap_cons. unfold values in *. cbn [mapM].
  rewrite (Hfg 0 e eq_refl). cbn.
  rewrite (IH (f ∘ S) (g ∘ S)); [done|].
  intros i e' Hi. exact (Hfg (S i) e' Hi).
Qed.

(** [Promise.all] fulfils, with the values in catalog order, once every
    call has resolved. *)
Lemma values_complete past :
  (∀ j, j < length E → j ∈ past ∧ isResolve (outs j) = true) →
  values (promisesAfter E outs past) = Some (resultsOf E (λ j, payload (outs j))).
Proof.
  intros H. unfold promisesAfter, resultsOf. apply values_imap.
  intros i e Hi. destruct (H i) as [Hin Hres]; [by eapply lookup_lt_Some|].
  rewrite bool_decide_eq_true_2 by done.
  destruct (outs i); [done | discriminate].
Qed.

(** ... and not while a call is pending. *)
Lemma values_pending past j :
  j < length E → j ∉ past → values (promisesAfter E outs past) = None.
Proof.
  intros Hj Hn. apply mapM_None, Exists_exists. exists Pending.
  split; [|done]. apply list_elem_of_lookup. exists j.
  rewrite promisesAfter_lookup.
  destruct (lookup_lt_is_Some_2 E j Hj) as [e ->]. cbn.
  by rewrite bool_decide_eq_false_2.
Qed.

(** One call settles: the handler does what [callsAt] lists and the batch
    moves on. *)
Lemma settle_batchAfter past i e :
  E !! i = Some e → NoDup (i :: past) → Forall (λ j, j < length E) (i :: past) →
  settle E i e (outs i) (batchAfter E outs past)
  = (callsAt E outs past i, batchAfter E outs (i :: past)).
Proof.
  intros He Hnd Hr.
  pose proof (range_length _ Hnd Hr) as Hlen. cbn [length] in Hlen.
  pose proof (resolved_le past) as Hle.
  pose proof (promisesAfter_insert past i e He) as Hins.
  unfold settle, callsAt, batchAfter.
  cbn [completedCount promises awaiting].
  rewrite resolved_cons. cbn [length].
  destruct (outs i) as [newBase64|err] eqn:Hout; cbn [isResolve].
  - cbn [promiseOf] in Hins.
    rewrite Hins. unfold resume. cbn [awaiting promises completedCount].
    destruct (bool_decide (resolved outs past = length past)) eqn:Hall; cbn [andb].
    + apply bool_decide_eq_true in Hall.
      rewrite (bool_decide_eq_true_2 (length past < length E)) by lia.
      rewrite (bool_decide_eq_true_2 (S (resolved outs past) = S (length past)))
        by lia.
      cbn [andb].
      destruct (decide (S (length past) = length E)) as [Hfull|Hpart].
      * rewrite values_complete.
        2:{ intros j Hj. pose proof (range_full _ Hnd Hr Hfull j Hj) as Hin.
            split; [done|]. apply elem_of_cons in Hin as [->|Hin].
            - by rewrite Hout.
            - apply resolved_all in Hall. by eapply Forall_forall in Hall. }
        rewrite (bool_decide_eq_true_2 _ Hfull).
        rewrite (bool_decide_eq_false_2 (S (length past) < length E)) by lia.
        done.
      * destruct (range_missing (i :: past)) as (j & Hj & Hnot); [cbn; lia|].
        rewrite (values_pending _ j Hj Hnot).
        rewrite (bool_decide_eq_false_2 _ Hpart).
        rewrite (bool_decide_eq_true_2 (S (length past) < length E)) by lia.
        done.
    + apply bool_decide_eq_false in Hall.
      rewrite (bool_decide_eq_false_2 (S (resolved outs past) = S (length past)))
        by lia.
      done.
  - cbn [promiseOf] in Hins.
    rewrite Hins.
    rewrite (bool_decide_eq_false_2 (resolved outs past = S (length past))) by lia.
    done.
Qed.

(** The same, as an event of the application. *)
Lemma step_settle w r past i :
  batches w !! r = Some (batchAfter E outs past) →
  NoDup (i :: past) → Forall (λ j, j < length E) (i :: past) →
  step E w (Settle r i (outs i))
  = Some (perform (callsAt E outs past i)
            (withBatches (<[r := batchAfter E outs (i :: past)]> (batches w)) w)).
Proof.
  intros Hb Hnd Hr.
  assert (i < length E) as Hi by (by apply Forall_cons in Hr as [? _]).
  destruct (lookup_lt_is_Some_2 E i Hi) as [e He].
  unfold step. rewrite Hb. cbn [mbind option_bind].
  change (promises (batchAfter E outs past)) with (promisesAfter E outs past).
  rewrite promisesAfter_lookup, He. cbn [fmap option_fmap option_map mbind option_bind].
  rewrite bool_decide_eq_false_2 by (by apply NoDup_cons in Hnd as [? _]).
  by rewrite (settle_batchAfter past i e He Hnd Hr).
Qed.

(** A schedule of settlements runs to the end and does what [callsFor]
    lists. *)
Lemma run_settles r todo :
  ∀ past w,
    batches w !! r = Some (batchAfter E outs past) →
    NoDup (todo ++ past) → Forall (λ j, j < length E) (todo ++ past) →
    run E w (settles r outs todo)
    = Some (perform (callsFor E outs past todo)
              (withBatches (<[r := batchAfter E outs (rev todo ++ past)]> (batches w)) w)).
Proof.
  induction todo as [|i todo IH]; intros past w Hb Hnd Hr.
  - cbn. rewrite perform_nil, (list_insert_id _ _ _ Hb). by destruct w.
  - cbn [settles fmap list_fmap run]. cbn [app] in Hnd, Hr.
    assert (NoDup (i :: past)) as Hnd1.
    { apply NoDup_cons in Hnd as [Hi Hnd]. apply NoDup_cons. split.
      - intros Hin. apply Hi, elem_of_app. by right.
      - by apply NoDup_app in Hnd as (_ & _ & ?). }
    assert (Forall (λ j, j < length E) (i :: past)) as Hr1.
    { apply Forall_cons in Hr as [Hi Hr]. apply Forall_cons. split; [done|].
      by apply Forall_app in Hr as [_ ?]. }
    rewrite (step_settle w r past i Hb Hnd1 Hr1). cbn [mbind option_bind].
    fold (settles r outs todo).
    rewrite (IH (i :: past)).
    + cbn [batches perform withBatches]. rewrite list_insert_insert_eq.
      cbn [rev callsFor]. rewrite <- (app_assoc (rev todo) [i] past). cbn [app].
      f_equal. unfold perform, withBatches. cbn.
      by rewrite foldl_app, omap_app, !app_assoc.
    + cbn [batches perform withBatches]. apply list_lookup_insert_eq.
      by eapply lookup_lt_Some.
    + by rewrite <- Permutation_middle.
    + by rewrite <- Permutation_middle.
Qed.

(** [handleGenerateExpressions] with an image: the resets, the requests,
    and a new batch with every call pending. *)
Lemma step_generate w (image : OriginalImage) :
  originalImage (state w) = Some image →
  step E w GenerateExpressions
  = Some (perform (startCalls E image)
            (withBatches (batches w ++ [batchAfter E outs []]) w)).
Proof.
  intros Himg. unfold step, handleGenerateExpressions, startCalls. rewrite Himg.
  unfold batchAfter. rewrite promisesAfter_nil. unfold totalExpressions.
  destruct E as [|e E']; cbn [length].
  - rewrite (bool_decide_eq_false_2 (0 < 0)) by lia.
    rewrite (bool_decide_eq_true_2 (0 = 0)) by done.
    by rewrite andb_false_r.
  - rewrite (bool_decide_eq_true_2 (0 < S (length E'))) by lia.
    rewrite (bool_decide_eq_false_2 (S (length E') = 0)) by done.
    by rewrite bool_decide_eq_true_2.
Qed.

Lemma callsFor_app past a b :
  callsFor E outs past (a ++ b)
  = callsFor E outs past a ++ callsFor E outs (rev a ++ past) b.
Proof.
  revert past. induction a as [|i a IH]; intros past; [done|].
  cbn [app callsFor rev]. rewrite IH, <- !app_assoc. done.
Qed.

(** Once the handler has left its [await], a settling call updates the
    progress at most. *)
Lemma callsFor_joined todo :
  ∀ past,
    awaiting (batchAfter E outs past) = false →
    NoDup (todo ++ past) → Forall (λ j, j < length E) (todo ++ past) →
    Forall isSetProgress (callsFor E outs past todo).
Proof.
  induction todo as [|i todo IH]; intros past Haw Hnd Hr; [constructor|].
  cbn [app] in Hnd, Hr. cbn [callsFor].
  pose proof (range_length _ Hnd Hr) as Hlen. cbn [length] in Hlen.
  rewrite length_app in Hlen.
  pose proof (resolved_le past) as Hle.
  assert (resolved outs past ≠ length past) as Hne.
  { unfold batchAfter in Haw. cbn [awaiting] in Haw.
    apply andb_false_iff in Haw as [Haw|Haw].
    - by apply bool_decide_eq_false in Haw.
    - apply bool_decide_eq_false in Haw. lia. }
  apply Forall_app. split.
  - unfold callsAt. rewrite Haw. destruct (outs i); [|constructor].
    rewrite (bool_decide_eq_false_2 _ Hne). cbn. by repeat constructor.
  - apply IH.
    + unfold batchAfter. cbn [awaiting length]. rewrite resolved_cons.
      rewrite bool_decide_eq_false_2; [done|].
      destruct (isResolve (outs i)); lia.
    + by rewrite <- Permutation_middle.
    + by rewrite <- Permutation_middle.
Qed.

(** While calls resolve and some call is still out, only the progress is
    updated, and the handler stays suspended. *)
Lemma callsFor_resolving pre :
  ∀ past,
    Forall (λ j, isResolve (outs j) = true) pre →
    resolved outs past = length past →
    length (pre ++ past) < length E →
    Forall isSetProgress (callsFor E outs past pre)
    ∧ awaiting (batchAfter E outs (rev pre ++ past)) = true.
Proof.
  induction pre as [|i pre IH]; intros past Hpre Hdone Hlen.
  - split; [constructor|]. unfold batchAfter. cbn [awaiting rev app] in *.
    rewrite bool_decide_eq_true_2 by done. by rewrite bool_decide_eq_true_2.
  - apply Forall_cons in Hpre as [Hi Hpre]. cbn [app length] in Hlen.
    rewrite length_app in Hlen.
    destruct (IH (i :: past)) as [IH1 IH2]; [done|..].
    + rewrite resolved_cons, Hi. cbn. lia.
    + rewrite length_app. cbn. lia.
    + split.
      * cbn [callsFor]. apply Forall_app. split; [|done].
        unfold callsAt. destruct (outs i); [|discriminate].
        rewrite (bool_decide_eq_false_2 (S (length past) = length E)) by lia.
        rewrite andb_false_r. by repeat constructor.
      * cbn [rev]. by rewrite <- app_assoc.
Qed.

(** The progress values of a schedule: one per resolving call, for the
    successive values of the counter. *)
Lemma emitted_callsFor todo :
  ∀ past,
    emitted (callsFor E outs past todo)
    = percent E <$> seq (S (resolved outs past)) (resolved outs todo).
Proof.
  induction todo as [|i todo IH]; intros past; [done|].
  cbn [callsFor]. rewrite emitted_app, IH, !resolved_cons.
  unfold callsAt. destruct (outs i) as [newBase64|reason] eqn:Hout; cbn [isResolve].
  - cbn [seq fmap list_fmap]. change (emitted (?c :: ?cs)) with (emitted [c] ++ emitted cs).
    cbn [emitted omap list_omap app].
    match goal with |- context [if ?c then _ else _] => destruct c end; done.
  - match goal with |- context [if ?c then _ else _] => destruct c end;
      [by destruct reason | done].
Qed.

End BatchCourse.

(** ** Batch generation *)

Section Generation.

Variable E : list Js.str.

Implicit Types (w : World) (image : OriginalImage) (order : list nat).

(** The state cells right after the resets and the requests. *)
Lemma state_started image (s : State) :
  let s' := foldl (λ s c, assign c s) s (startCalls E image) in
  originalImage s' = originalImage s ∧ generatedImages s' = []
  ∧ error s' = None ∧ progress s' = 0%Z
  ∧ isLoading s' = bool_decide (length E ≠ 0).
Proof.
  unfold startCalls. rewrite !foldl_app, foldl_requests.
  destruct E; cbn; done.
Qed.

Lemma order_range order :
  order ≡ₚ seq 0 (length E) →
  NoDup (order ++ []) ∧ Forall (λ j, j < length E) (order ++ [])
  ∧ length order = length E.
Proof.
  intros Hp. rewrite app_nil_r, Hp. split; [apply NoDup_seq|]. split.
  - apply Forall_forall. intros j Hj. apply elem_of_seq in Hj. lia.
  - apply length_seq.
Qed.

(** A batch in which every call resolves, in any completion order. *)
Lemma run_all_resolved w image (outs : nat → Outcome) order :
  originalImage (state w) = Some image →
  order ≡ₚ seq 0 (length E) →
  (∀ i, i < length E → isResolve (outs i) = true) →
  ∃ w1 w2,
    step E w GenerateExpressions = Some w1
    ∧ run E w1 (settles (length (batches w)) outs order) = Some w2
    ∧ generatedImages (state w2) = resultsOf E (λ j, payload (outs j))
    ∧ isLoading (state w2) = false
    ∧ error (state w2) = None.
Proof.
  intros Himg Hp Hres.
  destruct (order_range order Hp) as (Hnd & Hr & Hlen).
  eexists _, _. split; [apply (step_generate E outs w image Himg)|].
  split.
  { apply (run_settles E outs (length (batches w)) order []); [|done..].
    cbn [batches perform withBatches]. by apply list_lookup_middle. }
  cbn [state perform withBatches].
  destruct (state_started image (state w)) as (_ & Hgen & Herr & _ & Hload).
  revert Hgen Herr Hload.
  generalize (foldl (λ s c, assign c s) (state w) (startCalls E image)).
  intros s1 Hgen Herr Hload.
  destruct order as [|j pre _] using rev_ind.
  - cbn. cbn in Hlen. rewrite Hgen, Herr, Hload.
    destruct E; [|done]. by rewrite bool_decide_eq_false_2 by (intros ?; done).
  - rewrite length_app in Hlen. cbn in Hlen.
    assert (Forall (λ j, isResolve (outs j) = true) (pre ++ [j])) as Hall.
    { rewrite app_nil_r in Hr. eapply Forall_impl; [exact Hr|]. cbn. auto. }
    apply Forall_app in Hall as [Hpre Hj]. rewrite Forall_singleton in Hj.
    destruct (callsFor_resolving E outs pre []) as [Hquiet Haw];
      [done | done | rewrite app_nil_r; lia |].
    rewrite callsFor_app, foldl_app.
    destruct (foldl_setProgress _ s1 Hquiet) as (_ & _ & _ & Herr').
    revert Herr'. generalize (foldl (λ s c, assign c s) s1 (callsFor E outs [] pre)).
    intros s2 Herr'. cbn [callsFor]. unfold callsAt.
    unfold batchAfter in Haw. cbn [awaiting] in Haw.
    apply andb_true_iff in Haw as [Haw _]. rewrite Haw.
    destruct (outs j) eqn:Hout; [|discriminate].
    rewrite bool_decide_eq_true_2
      by (rewrite length_app, length_rev; cbn; lia).
    cbn. by rewrite Herr', Herr.
Qed.

End Generation.

(** C1. With an uploaded image and a catalog of eight labels, whatever the
    order in which the eight generation calls complete, when all of them
    succeed [handleGenerateExpressions] ends with exactly eight generated
    images whose labels are the catalog in its declared order; two
    completion orders give the same images. *)
Theorem generateAll_catalog_order (E : list Js.str) (w : World)
    (image : OriginalImage) (payloads : nat → Js.str) (order order' : list nat) :
  length E = 8 →
  originalImage (state w) = Some image →
  order ≡ₚ seq 0 8 →
  order' ≡ₚ seq 0 8 →
  ∃ w1 w2 w2',
    step E w GenerateExpressions = Some w1
    ∧ run E w1 (settles (length (batches w)) (λ i, Resolve (payloads i)) order)
      = Some w2
    ∧ run E w1 (settles (length (batches w)) (λ i, Resolve (payloads i)) order')
      = Some w2'
    ∧ length (generatedImages (state w2)) = 8
    ∧ expression <$> generatedImages (state w2) = E
    ∧ generatedImages (state w2') = generatedImages (state w2).
Proof.
  intros HE Himg Hp Hp'. rewrite <- HE in Hp, Hp'.
  destruct (run_all_resolved E w image (λ i, Resolve (payloads i)) order Himg Hp)
    as (w1 & w2 & Hstep & Hrun & Hgen & _); [done|].
  destruct (run_all_resolved E w image (λ i, Resolve (payloads i)) order' Himg Hp')
    as (w1' & w2' & Hstep' & Hrun' & Hgen' & _); [done|].
  assert (w1' = w1) as -> by congruence.
  exists w1, w2, w2'. repeat split; try done.
  - rewrite Hgen. unfold resultsOf. by rewrite length_imap.
  - rewrite Hgen. unfold resultsOf. apply list_eq. intros i.
    rewrite list_lookup_fmap, list_lookup_imap. by destruct (E !! i).
  - by rewrite Hgen, Hgen'.
Qed.

(** The sample catalog, with the calls completing out of order and in
    order. *)
Lemma generateAll_catalog_order_witness :
  ∃ w1 w2 w2',
    step sampleCatalog sampleWorld GenerateExpressions = Some w1
    ∧ run sampleCatalog w1
        (settles 0 (λ i, Resolve (Js.lit "AA==" ++ [N.of_nat i])) [3; 1; 0; 2; 7; 6; 5; 4])
      = Some w2
    ∧ run sampleCatalog w1
        (settles 0 (λ i, Resolve (Js.lit "AA==" ++ [N.of_nat i])) (seq 0 8))
      = Some w2'
    ∧ length (generatedImages (state w2)) = 8
    ∧ expression <$> generatedImages (state w2) = sampleCatalog
    ∧ generatedImages (state w2') = generatedImages (state w2).
Proof.
  apply (generateAll_catalog_order sampleCatalog sampleWorld sampleImage
           (λ i, Js.lit "AA==" ++ [N.of_nat i]) [3; 1; 0; 2; 7; 6; 5; 4] (seq 0 8)).
  - reflexivity.
  - reflexivity.
  - apply (bool_decide_unpack _). vm_compute. exact I.
  - reflexivity.
Defined.

(** C10. After a batch in which every call succeeds, the encoded image of
    entry [i] is the fixed prefix [data:image/png;base64,] followed by the
    payload the call for catalog entry [i] returned, whatever the media
    type of the uploaded file. *)
Theorem generated_images_png_prefix (E : list Js.str) (w : World)
    (image : OriginalImage) (payloads : nat → Js.str) (order : list nat) :
  originalImage (state w) = Some image →
  order ≡ₚ seq 0 (length E) →
  ∃ w1 w2,
    step E w GenerateExpressions = Some w1
    ∧ run E w1 (settles (length (batches w)) (λ i, Resolve (payloads i)) order)
      = Some w2
    ∧ length (generatedImages (state w2)) = length E
    ∧ ∀ i img,
        generatedImages (state w2) !! i = Some img →
        base64 img = «"data:image/png;base64,"» ++ payloads i.
Proof.
  intros Himg Hp.
  destruct (run_all_resolved E w image (λ i, Resolve (payloads i)) order Himg Hp)
    as (w1 & w2 & Hstep & Hrun & Hgen & _); [done|].
  exists w1, w2. split; [done|]. split; [done|]. rewrite Hgen. split.
  - unfold resultsOf. by rewrite length_imap.
  - intros i img. unfold resultsOf. rewrite list_lookup_imap.
    destruct (E !! i); [|done]. cbn. by intros [= <-].
Qed.

(** An uploaded JPEG: the generated images are still labelled as PNG. *)
Lemma generated_images_png_prefix_witness :
  type (file sampleImage) = «"image/jpeg"»
  ∧ ∃ w1 w2,
      step sampleCatalog sampleWorld GenerateExpressions = Some w1
      ∧ run sampleCatalog w1
          (settles 0 (λ i, Resolve (Js.lit "AA==" ++ [N.of_nat i])) [7; 6; 5; 4; 3; 2; 1; 0])
        = Some w2
      ∧ length (generatedImages (state w2)) = 8
      ∧ ∀ i img,
          generatedImages (state w2) !! i = Some img →
          base64 img = «"data:image/png;base64,"» ++ (Js.lit "AA==" ++ [N.of_nat i]).
Proof.
  split; [reflexivity|].
  apply (generated_images_png_prefix sampleCatalog sampleWorld sampleImage
           (λ i, Js.lit "AA==" ++ [N.of_nat i]) [7; 6; 5; 4; 3; 2; 1; 0]).
  - reflexivity.
  - apply (bool_decide_unpack _). vm_compute. exact I.
Defined.

(** ** A failing batch *)

Section Failure.

Variable E : list Js.str.
Variable outs : nat → Outcome.

Implicit Types (w : World) (image : OriginalImage) (order todo : list nat).

(** A schedule with a failing call splits at the first one. *)
Lemma first_reject todo :
  Exists (λ i, isResolve (outs i) = false) todo →
  ∃ pre j post reason,
    todo = pre ++ j :: post
    ∧ Forall (λ i, isResolve (outs i) = true) pre
    ∧ outs j = Reject reason.
Proof.
  induction todo as [|i todo IH]; intros Hex; [by apply Exists_nil in Hex|].
  destruct (outs i) as [p|reason] eqn:Hi.
  - apply Exists_cons in Hex as [Hex|Hex]; [by rewrite Hi in Hex|].
    destruct (IH Hex) as (pre & j & post & reason & -> & Hpre & Hj).
    exists (i :: pre), j, post, reason. split; [done|]. split; [|done].
    constructor; [by rewrite Hi | done].
  - exists [], i, todo, reason. by repeat split.
Qed.

(** What a schedule with a failing call makes the handler do: progress
    updates, the report of the first rejection, and progress updates
    again. *)
Lemma calls_rejected pre j post (reason : Reason) :
  NoDup (pre ++ j :: post) →
  Forall (λ i, i < length E) (pre ++ j :: post) →
  Forall (λ i, isResolve (outs i) = true) pre →
  outs j = Reject reason →
  ∃ before after,
    callsFor E outs [] (pre ++ j :: post) = before ++ report reason ++ after
    ∧ Forall isSetProgress before ∧ Forall isSetProgress after.
Proof.
  intros Hnd Hr Hpre Hj.
  assert (NoDup (post ++ j :: rev pre ++ [])) as Hnd'.
  { rewrite app_nil_r, <- Permutation_rev, <- Permutation_middle.
    rewrite (Permutation_app_comm post pre). by rewrite Permutation_middle. }
  assert (Forall (λ i, i < length E) (post ++ j :: rev pre ++ [])) as Hr'.
  { rewrite app_nil_r, <- Permutation_rev, <- Permutation_middle.
    rewrite (Permutation_app_comm post pre). by rewrite Permutation_middle. }
  assert (length (pre ++ []) < length E) as Hlen.
  { rewrite app_nil_r.
    assert (length (j :: pre) ≤ length E) as Hle; [|cbn in Hle; lia].
    apply range_length.
    - rewrite <- Permutation_middle in Hnd.
      apply NoDup_cons in Hnd as [Hin Hnd]. apply NoDup_cons. split.
      + intros Hin'. apply Hin, elem_of_app. by left.
      + by apply NoDup_app in Hnd as (? & _ & _).
    - rewrite <- Permutation_middle in Hr.
      apply Forall_cons in Hr as [Hin Hr]. apply Forall_cons. split; [done|].
      by apply Forall_app in Hr as [? _]. }
  destruct (callsFor_resolving E outs pre [] Hpre eq_refl Hlen) as [Hquiet Haw].
  exists (callsFor E outs [] pre), (callsFor E outs (j :: rev pre ++ []) post).
  split; [|split; [done|]].
  - rewrite callsFor_app. cbn [callsFor]. unfold callsAt at 1.
    by rewrite Hj, Haw.
  - apply callsFor_joined; [|done..].
    unfold batchAfter. cbn [awaiting length]. rewrite resolved_cons, Hj.
    cbn [isResolve]. pose proof (resolved_le outs (rev pre ++ [])).
    by rewrite bool_decide_eq_false_2 by lia.
Qed.

(** The cells at the end of a schedule with a failing call. *)
Lemma state_rejected pre j post (reason : Reason) (s : State) :
  NoDup (pre ++ j :: post) →
  Forall (λ i, i < length E) (pre ++ j :: post) →
  Forall (λ i, isResolve (outs i) = true) pre →
  outs j = Reject reason →
  let s' := foldl (λ s c, assign c s) s (callsFor E outs [] (pre ++ j :: post)) in
  error s' = reported reason (error s) ∧ isLoading s' = false
  ∧ generatedImages s' = generatedImages s
  ∧ originalImage s' = originalImage s.
Proof.
  intros Hnd Hr Hpre Hj.
  destruct (calls_rejected pre j post reason Hnd Hr Hpre Hj)
    as (before & after & -> & Hbefore & Hafter).
  cbn zeta. rewrite !foldl_app.
  destruct (foldl_setProgress after
              (foldl (λ s c, assign c s) (foldl (λ s c, assign c s) s before)
                 (report reason)) Hafter) as (-> & -> & -> & ->).
  destruct (foldl_report reason (foldl (λ s c, assign c s) s before))
    as (-> & -> & -> & _ & ->).
  by destruct (foldl_setProgress before s Hbefore) as (-> & -> & _ & ->).
Qed.


End Failure.




(** ** Progress *)

Section Progress.

Variable E : list Js.str.
Hypothesis eight : length E = 8.

(** With eight catalog entries the binary64 quotient and product are
    exact, and [Math.round] gives the percentage rounded half up. *)
Lemma percent_eight (k : nat) :
  1 ≤ k ≤ 8 → percent E k = roundHalfUp (100 * Z.of_nat k) 8.
Proof using eight.
  intros Hk. unfold percent, totalExpressions. rewrite eight.
  do 9 (destruct k as [|k]; [try lia; try (vm_compute; reflexivity)|]).
  lia.
Qed.

Lemma percents_eight (m : nat) :
  m ≤ 8 →
  percent E <$> seq 1 m = (λ k, roundHalfUp (100 * Z.of_nat k) 8) <$> seq 1 m.
Proof using eight.
  intros Hm. apply list_fmap_ext. intros i k Hk.
  apply lookup_seq in Hk as [-> Hi]. apply percent_eight. lia.
Qed.

End Progress.

(** The percentages of one to eight completed calls. *)
Lemma percents_increase (m : nat) :
  m ≤ 8 →
  StronglySorted Z.lt ((λ k, roundHalfUp (100 * Z.of_nat k) 8) <$> seq 1 m)
  ∧ (100%Z ∈ (λ k, roundHalfUp (100 * Z.of_nat k) 8) <$> seq 1 m ↔ m = 8)
  ∧ (roundHalfUp (100 * Z.of_nat m) 8 = 100%Z ↔ m = 8).
Proof.
  intros Hm.
  do 9 (destruct m as [|m];
        [vm_compute roundHalfUp; cbn [seq fmap list_fmap];
         split; [repeat constructor; lia|];
         split; [rewrite ?elem_of_cons, elem_of_nil; lia | vm_compute; split; lia]
        |]).
  lia.
Qed.

(** The progress cell holds the value of the latest [setProgress]. *)
Lemma progress_last (cs : list Call) (s : State) :
  progress (foldl (λ s c, assign c s) s cs) = default (progress s) (last (emitted cs)).
Proof.
  revert s. induction cs as [|c cs IH]; intros s; [done|].
  cbn [foldl]. rewrite IH.
  destruct c; try done. cbn [assign progress].
  change (emitted (setProgress v :: cs)) with (v :: emitted cs).
  rewrite last_cons. by destruct (last (emitted cs)).
Qed.

(** C3. In a batch over a catalog of eight labels, after any calls [order]
    have settled the completion counter equals the number of those calls
    that resolved (each success counts once, a failure never); the values
    given to [setProgress] are round(100·k/8) for k = 1, 2, ... up to that
    number, in this order and hence strictly increasing; and the progress
    is 100 exactly when all eight calls have resolved. *)
Theorem progress_counts_successes (E : list Js.str) (w : World)
    (image : OriginalImage) (outs : nat → Outcome) (order : list nat) :
  length E = 8 →
  originalImage (state w) = Some image →
  NoDup order →
  Forall (λ i, i < 8) order →
  ∃ w1 w2 b cs,
    step E w GenerateExpressions = Some w1
    ∧ run E w1 (settles (length (batches w)) outs order) = Some w2
    ∧ callsDuring E w1 (settles (length (batches w)) outs order) = Some cs
    ∧ batches w2 !! length (batches w) = Some b
    ∧ completedCount b = resolved outs order
    ∧ emitted cs
      = (λ k, roundHalfUp (100 * Z.of_nat k) 8) <$> seq 1 (resolved outs order)
    ∧ StronglySorted Z.lt (emitted cs)
    ∧ (100%Z ∈ emitted cs ↔ resolved outs order = 8)
    ∧ progress (state w2) = roundHalfUp (100 * Z.of_nat (resolved outs order)) 8
    ∧ (progress (state w2) = 100%Z ↔ resolved outs order = 8).
Proof.
  intros HE Himg Hnd Hr. rewrite <- HE in Hr.
  pose proof (step_generate E outs w image Himg) as Hstep.
  set (w1 := perform (startCalls E image)
               (withBatches (batches w ++ [batchAfter E outs []]) w)) in *.
  assert (batches w1 !! length (batches w) = Some (batchAfter E outs [])) as Hb.
  { cbn [w1 batches perform withBatches]. by apply list_lookup_middle. }
  assert (run E w1 (settles (length (batches w)) outs order)
          = Some (perform (callsFor E outs [] order)
                    (withBatches (<[length (batches w) :=
                                     batchAfter E outs (rev order ++ [])]> (batches w1)) w1)))
    as Hrun.
  { apply (run_settles E outs (length (batches w)) order []);
      [done | by rewrite app_nil_r..]. }
  assert (resolved outs order ≤ 8) as Hm.
  { pose proof (resolved_le outs order). pose proof (range_length E order Hnd Hr). lia. }
  destruct (percents_increase (resolved outs order) Hm) as (Hsorted & Hhundred & Hfull).
  assert (emitted (callsFor E outs [] order)
          = (λ k, roundHalfUp (100 * Z.of_nat k) 8) <$> seq 1 (resolved outs order))
    as Hemit.
  { rewrite emitted_callsFor. by apply percents_eight. }
  eexists w1, _, _, (callsFor E outs [] order).
  split; [exact Hstep|]. split; [exact Hrun|].
  split.
  { unfold callsDuring. rewrite Hrun. cbn [mbind option_bind calls perform withBatches].
    by rewrite drop_app_length. }
  split.
  { cbn [batches perform withBatches]. apply list_lookup_insert_eq.
    by eapply lookup_lt_Some. }
  split.
  { cbn [completedCount batchAfter]. unfold resolved.
    by rewrite app_nil_r, <- Permutation_rev. }
  split; [exact Hemit|].
  split; [by rewrite Hemit|].
  split; [by rewrite Hemit|].
  assert (progress (perform (callsFor E outs [] order)
                      (withBatches (<[length (batches w) :=
                                       batchAfter E outs (rev order ++ [])]> (batches w1)) w1)).(state)
          = roundHalfUp (100 * Z.of_nat (resolved outs order)) 8) as Hprog.
  { cbn [w1 state perform withBatches]. rewrite progress_last, Hemit.
    destruct (state_started E image (state w)) as (_ & _ & _ & -> & _).
    destruct (resolved outs order) as [|m]; [done|].
    rewrite seq_S, fmap_app. cbn [fmap list_fmap]. by rewrite last_snoc. }
  split; [exact Hprog|]. by rewrite Hprog.
Qed.

(** Six calls settle, two of them with a failure: the counter is at four
    and the progress values are 13, 25, 38 and 50. *)
Lemma progress_counts_successes_witness :
  ∃ w1 w2 b cs,
    step sampleCatalog sampleWorld GenerateExpressions = Some w1
    ∧ run sampleCatalog w1
        (settles 0 (λ i, if (i <? 2)%nat then Reject {| message := None |}
                         else Resolve «"AA=="») [5; 1; 2; 7; 0; 3]) = Some w2
    ∧ callsDuring sampleCatalog w1
        (settles 0 (λ i, if (i <? 2)%nat then Reject {| message := None |}
                         else Resolve «"AA=="») [5; 1; 2; 7; 0; 3]) = Some cs
    ∧ batches w2 !! 0 = Some b
    ∧ completedCount b = 4
    ∧ emitted cs = [13; 25; 38; 50]%Z
    ∧ StronglySorted Z.lt (emitted cs)
    ∧ (100%Z ∈ emitted cs ↔ 4 = 8)
    ∧ progress (state w2) = 50%Z
    ∧ (progress (state w2) = 100%Z ↔ 4 = 8).
Proof.
  apply (progress_counts_successes sampleCatalog sampleWorld sampleImage
           (λ i, if (i <? 2)%nat then Reject {| message := None |}
                 else Resolve «"AA=="») [5; 1; 2; 7; 0; 3]).
  - reflexivity.
  - reflexivity.
  - apply (bool_decide_unpack _). vm_compute. exact I.
  - apply (bool_decide_unpack _). vm_compute. exact I.
Defined.

(** ** Guards of the handlers *)

(** C9. Without an uploaded image [handleGenerateExpressions] returns at
    once: it makes no call at all (no request, no setter) and starts no
    batch, so the loading flag, the progress, the error and the generated
    images are what they were. *)
Theorem generate_without_image (E : list Js.str) (w : World) :
  originalImage (state w) = None →
  handleGenerateExpressions E (state w) = ([], None)
  ∧ step E w GenerateExpressions = Some w
  ∧ callsDuring E w [GenerateExpressions] = Some [].
Proof.
  intros Himg.
  assert (handleGenerateExpressions E (state w) = ([], None)) as Hh
    by (unfold handleGenerateExpressions; by rewrite Himg).
  assert (step E w GenerateExpressions = Some w) as Hstep.
  { unfold step. rewrite Hh. cbn [option_list]. rewrite perform_nil.
    unfold withBatches. rewrite app_nil_r. by destruct w. }
  split; [done|]. split; [done|].
  unfold callsDuring. cbn [run]. rewrite Hstep. cbn [mbind option_bind].
  by rewrite drop_all.
Qed.

(** Before any upload, and while a stale error and progress are shown. *)
Lemma generate_without_image_witness :
  let w := {| state := {| originalImage := None; generatedImages := [];
                          isLoading := false; error := Some «"overloaded"»;
                          progress := 38 |};
              batches := []; reading := []; calls := [] |} in
  handleGenerateExpressions sampleCatalog (state w) = ([], None)
  ∧ step sampleCatalog w GenerateExpressions = Some w
  ∧ callsDuring sampleCatalog w [GenerateExpressions] = Some [].
Proof.
  intros w. apply (generate_without_image sampleCatalog w). reflexivity.
Defined.

(** ** What every run of the application preserves *)

Section Reachable.

Variable E : list Js.str.

Implicit Types (w : World) (cs : list Call) (b : Batch).

Lemma resume_batch_calls b : Forall isBatchCall (resume b).1.
Proof.
  unfold resume. destruct (awaiting b); [|constructor].
  destruct (values (promises b)); cbn; by repeat constructor.
Qed.

Lemma settle_batch_calls i (e : Js.str) (o : Outcome) b :
  Forall isBatchCall (settle E i e o b).1.
Proof.
  unfold settle. destruct o as [p|reason].
  - match goal with |- context [resume ?x] =>
      pose proof (resume_batch_calls x) as Hres; destruct (resume x) as [cs b'] end.
    cbn in *. by constructor.
  - destruct (awaiting b); [|constructor].
    destruct reason; cbn; by repeat constructor.
Qed.

Lemma generate_batch_calls (s : State) :
  Forall isBatchCall (handleGenerateExpressions E s).1.
Proof.
  unfold handleGenerateExpressions.
  destruct (originalImage s) as [[image|f]|]; [|by repeat constructor|constructor].
  match goal with |- context [resume ?x] =>
    pose proof (resume_batch_calls x) as Hres; destruct (resume x) as [cs b'] end.
  cbn in *. repeat (constructor; [done|]).
  apply Forall_app. split; [|done]. by apply Forall_fmap, Forall_true.
Qed.

(** The batch handlers leave the uploaded image and the pending reads
    alone. *)
Lemma perform_batch_calls cs w :
  Forall isBatchCall cs →
  originalImage (state (perform cs w)) = originalImage (state w)
  ∧ reading (perform cs w) = reading w.
Proof.
  intros Hcs. unfold perform. cbn [state reading].
  assert (omap (λ c, match c with readAsDataURL f => Some f | _ => None end) cs = [])
    as ->.
  { induction Hcs as [|c cs Hc _ IH]; [done|]. by destruct c. }
  rewrite app_nil_r. split; [|done].
  generalize (state w). induction Hcs as [|c cs Hc _ IH]; intros s; [done|].
  cbn [foldl]. rewrite IH. by destruct c.
Qed.

(** The two batch events, as calls performed on the world. *)
Lemma step_batch w (ev : Event) w' :
  step E w ev = Some w' →
  match ev with GenerateExpressions | Settle _ _ _ => True | _ => False end →
  ∃ cs bs, Forall isBatchCall cs ∧ w' = perform cs (withBatches bs w).
Proof.
  intros Hstep Hev. destruct ev as [| | | | |r i o| |]; try done.
  - cbn in Hstep. pose proof (generate_batch_calls (state w)) as Hcs.
    destruct (handleGenerateExpressions E (state w)) as [cs started].
    injection Hstep as <-. by eexists _, _.
  - cbn in Hstep.
    destruct (batches w !! r) as [b|]; [|done]. cbn in Hstep.
    destruct (promises b !! i) as [p|]; [|done]. cbn in Hstep.
    destruct (E !! i) as [e|]; [|done]. cbn in Hstep.
    destruct p; try done.
    pose proof (settle_batch_calls i e o b) as Hcs.
    destruct (settle E i e o b) as [cs b'].
    injection Hstep as <-. by eexists _, _.
Qed.

(** An archive that cannot be generated leaves the world as it is. *)
Lemma step_download_rejected w w' :
  step E w DownloadAllRejected = Some w' → w' = w.
Proof.
  cbn. destruct (generatedImages (state w)); [done|]. by intros [= <-].
Qed.

Lemma archiveOf_nonempty (img : GeneratedImage) (images : list GeneratedImage) :
  archiveOf (img :: images) ≠ ∅.
Proof.
  unfold archiveOf. cbn [foldl].
  assert (addImage JSZip.new img ≠ ∅) as Hne by apply insert_non_empty.
  revert Hne. generalize (addImage JSZip.new img).
  induction images as [|x images IH]; intros zip Hne; [done|].
  cbn [foldl]. apply IH, insert_non_empty.
Qed.

Lemma batch_call_downloadsSomething cs :
  Forall isBatchCall cs → Forall downloadsSomething cs.
Proof. intros Hcs. eapply Forall_impl; [exact Hcs|]. by intros []. Qed.

(** No event offers an empty archive. *)
Lemma step_downloads w (ev : Event) w' :
  step E w ev = Some w' →
  Forall downloadsSomething (calls w) → Forall downloadsSomething (calls w').
Proof.
  intros Hstep Hinv. destruct ev as [files|k result|k| | |r i o| |].
  - injection Hstep as <-. cbn. apply Forall_app. split; [done|].
    unfold handleFileChange. destruct (files !! 0) as [f|]; [|constructor].
    destruct (Js.startsWith _ _); by repeat constructor.
  - cbn in Hstep. destruct (reading w !! k); [|done].
    injection Hstep as <-. cbn. apply Forall_app. split; [done|].
    by repeat constructor.
  - cbn in Hstep. destruct (reading w !! k); [|done].
    injection Hstep as <-. cbn. apply Forall_app. split; [done|].
    by repeat constructor.
  - injection Hstep as <-. cbn. apply Forall_app. split; [done|].
    by repeat constructor.
  - destruct (step_batch _ _ _ Hstep I) as (cs & bs & Hcs & ->). cbn.
    apply Forall_app. split; [done|]. by apply batch_call_downloadsSomething.
  - destruct (step_batch _ _ _ Hstep I) as (cs & bs & Hcs & ->). cbn.
    apply Forall_app. split; [done|]. by apply batch_call_downloadsSomething.
  - injection Hstep as <-. cbn. apply Forall_app. split; [done|].
    unfold handleDownloadAll. destruct (generatedImages (state w)); [constructor|].
    repeat constructor. apply archiveOf_nonempty.
  - by rewrite (step_download_rejected _ _ Hstep).
Qed.

Lemma run_downloads (evs : list Event) :
  ∀ w w', run E w evs = Some w' →
    Forall downloadsSomething (calls w) → Forall downloadsSomething (calls w').
Proof.
  induction evs as [|ev evs IH]; intros w w' Hrun Hinv.
  - by injection Hrun as <-.
  - cbn in Hrun. destruct (step E w ev) as [w1|] eqn:Hstep; [|done].
    cbn in Hrun. eapply IH; [exact Hrun|]. by eapply step_downloads.
Qed.

Lemma startsWith_prefix (p s : Js.str) :
  Js.startsWith p s = true ↔ p `prefix_of` s.
Proof.
  revert s. induction p as [|a p IH]; intros s.
  - split; [intros _; apply prefix_nil | done].
  - destruct s as [|c s]; cbn.
    + split; [done | intros H; by apply prefix_nil_not in H].
    + rewrite andb_true_iff, N.eqb_eq, IH. split.
      * intros [-> H]. by apply prefix_cons.
      * intros H. split; [by eapply prefix_cons_inv_1 | by eapply prefix_cons_inv_2].
Qed.

Lemma step_imagesOnly w (ev : Event) w' :
  step E w ev = Some w' → imagesOnly w → imagesOnly w'.
Proof.
  intros Hstep [Hread Himg]. destruct ev as [files|k result|k| | |r i o| |].
  - injection Hstep as <-. unfold handleFileChange.
    destruct (files !! 0) as [f|]; [|by rewrite perform_nil].
    destruct (Js.startsWith _ _) eqn:Hty; [|by rewrite perform_nil].
    split; [|done]. cbn. apply Forall_app. split; [done|].
    repeat constructor. by apply startsWith_prefix.
  - cbn in Hstep. destruct (reading w !! k) as [f|] eqn:Hk; [|done].
    injection Hstep as <-. split.
    + cbn. rewrite app_nil_r. by apply Forall_delete.
    + cbn. intros img [= <-]. cbn.
      eapply Forall_lookup_1 in Hread; [exact Hread | exact Hk].
  - cbn in Hstep. destruct (reading w !! k) as [f|] eqn:Hk; [|done].
    injection Hstep as <-. split.
    + cbn. rewrite app_nil_r. by apply Forall_delete.
    + cbn. intros img [= <-]. cbn.
      eapply Forall_lookup_1 in Hread; [exact Hread | exact Hk].
  - injection Hstep as <-. split; [by cbn; rewrite app_nil_r | done].
  - destruct (step_batch _ _ _ Hstep I) as (cs & bs & Hcs & ->).
    destruct (perform_batch_calls cs (withBatches bs w) Hcs) as [Ho Hr].
    split; [by rewrite Hr | by rewrite Ho].
  - destruct (step_batch _ _ _ Hstep I) as (cs & bs & Hcs & ->).
    destruct (perform_batch_calls cs (withBatches bs w) Hcs) as [Ho Hr].
    split; [by rewrite Hr | by rewrite Ho].
  - injection Hstep as <-. unfold handleDownloadAll.
    destruct (generatedImages (state w)); [by rewrite perform_nil|].
    split; [by cbn; rewrite app_nil_r | done].
  - by rewrite (step_download_rejected _ _ Hstep).
Qed.

Lemma run_imagesOnly (evs : list Event) :
  ∀ w w', run E w evs = Some w' → imagesOnly w → imagesOnly w'.
Proof.
  induction evs as [|ev evs IH]; intros w w' Hrun Hinv.
  - by injection Hrun as <-.
  - cbn in Hrun. destruct (step E w ev) as [w1|] eqn:Hstep; [|done].
    cbn in Hrun. eapply IH; [exact Hrun|]. by eapply step_imagesOnly.
Qed.

End Reachable.

(** C7. With no generated image [handleDownloadAll] returns at once: it
    makes no call, so no archive is produced and the world is unchanged.
    Moreover, from the initial state on, no sequence of events ever offers
    an archive without entries. *)
Theorem download_needs_images (E : list Js.str) (w : World) :
  generatedImages (state w) = [] →
  handleDownloadAll (state w) = []
  ∧ step E w DownloadAll = Some w
  ∧ callsDuring E w [DownloadAll] = Some []
  ∧ ∀ evs w' filename zip,
      run E initialWorld evs = Some w' →
      download filename zip ∈ calls w' → zip ≠ ∅.
Proof.
  intros Hgen.
  assert (handleDownloadAll (state w) = []) as Hh
    by (unfold handleDownloadAll; by rewrite Hgen).
  assert (step E w DownloadAll = Some w) as Hstep
    by (unfold step; by rewrite Hh, perform_nil).
  split; [done|]. split; [done|]. split.
  - unfold callsDuring. cbn [run]. rewrite Hstep. cbn [mbind option_bind].
    by rewrite drop_all.
  - intros evs w' filename zip Hrun Hin.
    assert (Forall downloadsSomething (calls w')) as Hall
      by (eapply run_downloads; [exact Hrun | constructor]).
    eapply Forall_forall in Hall; [|exact Hin]. exact Hall.
Qed.

(** An image is uploaded but nothing has been generated yet. *)
Lemma download_needs_images_witness :
  handleDownloadAll (state sampleWorld) = []
  ∧ step sampleCatalog sampleWorld DownloadAll = Some sampleWorld
  ∧ callsDuring sampleCatalog sampleWorld [DownloadAll] = Some []
  ∧ ∀ evs w' filename zip,
      run sampleCatalog initialWorld evs = Some w' →
      download filename zip ∈ calls w' → zip ≠ ∅.
Proof.
  apply (download_needs_images sampleCatalog sampleWorld). reflexivity.
Defined.

(** C8. A selected file whose declared type starts with [image/] is read,
    and the end of the read makes it the uploaded image; a selection whose
    first file has another type, or no file, changes nothing: no read, no
    call, the same state. From the initial state on, the uploaded image is
    always a file whose type starts with [image/]. *)
Theorem ingest_images_only (E : list Js.str) (w : World) (files : list File) :
  (∀ f, files !! 0 = Some f → «"image/"» `prefix_of` type f →
     ∃ w1,
       step E w (FileChange files) = Some w1
       ∧ state w1 = state w
       ∧ reading w1 = reading w ++ [f]
       ∧ ∀ result, ∃ w2,
           step E w1 (LoadEnd (length (reading w)) result) = Some w2
           ∧ originalImage (state w2) = Some {| file := f; dataUrl := result |})
  ∧ ((files !! 0 = None
      ∨ ∃ f, files !! 0 = Some f ∧ ¬ «"image/"» `prefix_of` type f) →
     handleFileChange files = [] ∧ step E w (FileChange files) = Some w)
  ∧ (∀ evs w' img,
       run E initialWorld evs = Some w' →
       originalImage (state w') = Some img →
       «"image/"» `prefix_of` type (uploadedFile img)).
Proof.
  split; [|split].
  - intros f Hf Hty. apply startsWith_prefix in Hty.
    eexists. split; [reflexivity|].
    unfold handleFileChange. rewrite Hf, Hty. cbn [perform state reading omap list_omap].
    split; [done|]. split; [done|].
    intros result. eexists. split.
    + unfold step. cbn [reading perform omap list_omap].
      rewrite list_lookup_middle by done. reflexivity.
    + reflexivity.
  - intros Hcase.
    assert (handleFileChange files = []) as Hh.
    { unfold handleFileChange. destruct Hcase as [->|(f & -> & Hty)]; [done|].
      destruct (Js.startsWith _ _) eqn:Hs; [|done].
      by apply startsWith_prefix in Hs. }
    split; [done|]. unfold step. by rewrite Hh, perform_nil.
  - intros evs w' img Hrun Himg.
    assert (imagesOnly w') as [_ Hinv].
    { eapply run_imagesOnly; [exact Hrun|]. split; [constructor | done]. }
    by apply Hinv.
Qed.

(** A JPEG is accepted and a PDF is not. *)
Lemma ingest_images_only_witness :
  (∃ w1,
     step sampleCatalog initialWorld (FileChange [file sampleImage]) = Some w1
     ∧ state w1 = state initialWorld
     ∧ reading w1 = reading initialWorld ++ [file sampleImage]
     ∧ ∀ result, ∃ w2,
         step sampleCatalog w1 (LoadEnd (length (reading initialWorld)) result) = Some w2
         ∧ originalImage (state w2)
           = Some {| file := file sampleImage; dataUrl := result |})
  ∧ handleFileChange [{| name := «"notes.pdf"»; type := «"application/pdf"» |}] = []
  ∧ step sampleCatalog initialWorld
      (FileChange [{| name := «"notes.pdf"»; type := «"application/pdf"» |}])
    = Some initialWorld.
Proof.
  split.
  - apply (ingest_images_only sampleCatalog initialWorld [file sampleImage]).
    + reflexivity.
    + apply startsWith_prefix. reflexivity.
  - apply (ingest_images_only sampleCatalog initialWorld
             [{| name := «"notes.pdf"»; type := «"application/pdf"» |}]).
    right. eexists. split; [reflexivity|].
    intros H. apply startsWith_prefix in H. discriminate H.
Defined.

(** ** The archive *)

Section Archive.

Implicit Types (images : list GeneratedImage) (img : GeneratedImage) (s d : Js.str).

Lemma split_nonempty (sep : N) s : Js.split sep s ≠ [].
Proof.
  destruct s as [|c r]; [done|]. cbn.
  destruct (c =? sep)%N; [done|]. by destruct (Js.split sep r).
Qed.

Lemma split_no_separator (sep : N) d : sep ∉ d → Js.split sep d = [d].
Proof.
  induction d as [|c r IH]; intros Hd; [done|].
  apply not_elem_of_cons in Hd as [Hc Hr]. cbn.
  rewrite (proj2 (N.eqb_neq c sep)) by done. by rewrite IH.
Qed.

(** For a media-type prefix, a comma and a payload without comma,
    [split(',')[1]] is the payload. *)
Lemma split_payload (sep : N) s d :
  afterFirst sep s = Some d → sep ∉ d → Js.split sep s !! 1 = Some d.
Proof.
  induction s as [|c r IH]; intros Hs Hd; [done|]. cbn in Hs |- *.
  destruct (c =? sep)%N.
  - injection Hs as ->. by rewrite split_no_separator.
  - specialize (IH Hs Hd). pose proof (split_nonempty sep r).
    by destruct (Js.split sep r).
Qed.

Lemma archiveOf_snoc images img :
  archiveOf (images ++ [img]) = addImage (archiveOf images) img.
Proof. apply foldl_snoc. Qed.

(** The units of a string after a replacement are units of the string or
    of the replacement text. *)
Lemma replaceFrom_units (re : Js.pattern) (by_ : Js.str) (skip : nat) s (c : N) :
  c ∈ Js.replaceFrom re by_ skip s → c ∈ s ∨ c ∈ by_.
Proof.
  revert skip. induction s as [|a r IH]; intros skip Hin; [by left|].
  cbn [Js.replaceFrom] in Hin. destruct skip as [|k].
  - destruct (re (a :: r)) as [|k].
    + apply elem_of_cons in Hin as [->|Hin]; [left; by left|].
      destruct (IH _ Hin); [left; by right | by right].
    + apply elem_of_app in Hin as [Hin|Hin]; [by right|].
      destruct (IH _ Hin); [left; by right | by right].
  - destruct (IH _ Hin); [left; by right | by right].
Qed.

(** A label without slash gives a name without slash. *)
Lemma fileName_no_slash (label : Js.str) : 47%N ∉ label → 47%N ∉ fileName label.
Proof.
  intros Hl Hin. unfold fileName, Js.replaceAll in Hin.
  apply elem_of_app in Hin as [Hin|Hin].
  - apply replaceFrom_units in Hin as [Hin|Hin].
    + apply replaceFrom_units in Hin as [Hin|Hin]; [done|].
      by apply elem_of_nil in Hin.
    + apply (bool_decide_pack _) in Hin. by vm_compute in Hin.
  - apply (bool_decide_pack _) in Hin. by vm_compute in Hin.
Qed.

Lemma lastSlash_none (path : Js.str) : 47%N ∉ path → JSZip.lastSlash path = 0.
Proof.
  induction path as [|c r IH]; intros Hp; [done|].
  apply not_elem_of_cons in Hp as [Hc Hr]. cbn [JSZip.lastSlash].
  rewrite (IH Hr). by rewrite (proj2 (N.eqb_neq c 47)) by congruence.
Qed.

Lemma dropTrailingSlash_none (path : Js.str) :
  47%N ∉ path → JSZip.dropTrailingSlash path = path.
Proof.
  induction path as [|c r IH]; intros Hp; [done|].
  apply not_elem_of_cons in Hp as [Hc Hr]. destruct r as [|c' r'].
  - cbn. by rewrite (proj2 (N.eqb_neq c 47)) by congruence.
  - change (c :: JSZip.dropTrailingSlash (c' :: r') = c :: c' :: r').
    by rewrite (IH Hr).
Qed.

(** A name without slash has no parent folder: [file] adds or replaces
    the one entry. *)
Lemma file_flat (name : Js.str) (data : option Js.str) (zip : gmap Js.str JSZip.entry) :
  47%N ∉ name → JSZip.file name data zip = <[name := JSZip.Data data]> zip.
Proof.
  intros Hn. unfold JSZip.file, JSZip.parentFolder.
  by rewrite (dropTrailingSlash_none _ Hn), (lastSlash_none _ Hn).
Qed.

(** Adding folders leaves the entries that are there as they are, and
    adds folders only. *)
Lemma folderAdd_keeps (fuel : nat) (name k : Js.str) (e : JSZip.entry)
    (zip : gmap Js.str JSZip.entry) :
  zip !! k = Some e → JSZip.folderAdd fuel name zip !! k = Some e.
Proof.
  revert name zip. induction fuel as [|fuel IH]; intros name zip Hk; [done|].
  cbn [JSZip.folderAdd].
  destruct (zip !! JSZip.forceTrailingSlash name) eqn:Hthere; [done|].
  rewrite lookup_insert_ne by (intros <-; congruence).
  destruct (JSZip.parentFolder (JSZip.forceTrailingSlash name)); [done|].
  by apply IH.
Qed.

Lemma folderAdd_inv (fuel : nat) (name k : Js.str) (e : JSZip.entry)
    (zip : gmap Js.str JSZip.entry) :
  JSZip.folderAdd fuel name zip !! k = Some e →
  zip !! k = Some e ∨ e = JSZip.Folder.
Proof.
  revert name zip. induction fuel as [|fuel IH]; intros name zip Hk; [by left|].
  cbn [JSZip.folderAdd] in Hk.
  destruct (zip !! JSZip.forceTrailingSlash name) eqn:Hthere; [by left|].
  destruct (decide (JSZip.forceTrailingSlash name = k)) as [<-|Hne].
  - rewrite lookup_insert_eq in Hk. injection Hk as <-. by right.
  - rewrite lookup_insert_ne in Hk by done.
    destruct (JSZip.parentFolder (JSZip.forceTrailingSlash name)); [by left|].
    by eapply IH.
Qed.

Lemma file_keeps (name k : Js.str) (data : option Js.str) (e : JSZip.entry)
    (zip : gmap Js.str JSZip.entry) :
  k ≠ name → zip !! k = Some e → JSZip.file name data zip !! k = Some e.
Proof.
  intros Hne Hk. unfold JSZip.file. rewrite lookup_insert_ne by done.
  destruct (JSZip.parentFolder name); [done|]. by apply folderAdd_keeps.
Qed.

Lemma file_inv (name k : Js.str) (data : option Js.str) (e : JSZip.entry)
    (zip : gmap Js.str JSZip.entry) :
  JSZip.file name data zip !! k = Some e →
  (k = name ∧ e = JSZip.Data data) ∨ zip !! k = Some e ∨ e = JSZip.Folder.
Proof.
  unfold JSZip.file. intros Hk.
  destruct (decide (name = k)) as [<-|Hne].
  - rewrite lookup_insert_eq in Hk. injection Hk as <-. by left.
  - rewrite lookup_insert_ne in Hk by done. right.
    destruct (JSZip.parentFolder name); [by left|]. by eapply folderAdd_inv.
Qed.

(** The entry of a name holds the data of the last image of that name. *)
Lemma archiveOf_last (before after : list GeneratedImage) img :
  (∀ x, x ∈ after → fileName (expression x) ≠ fileName (expression img)) →
  archiveOf (before ++ img :: after) !! fileName (expression img)
  = Some (JSZip.Data (Js.split 44 (base64 img) !! 1)).
Proof.
  intros Hafter. induction after as [|x after IH] using rev_ind.
  - rewrite archiveOf_snoc. unfold addImage, JSZip.file. apply lookup_insert_eq.
  - rewrite app_comm_cons, app_assoc, archiveOf_snoc. unfold addImage.
    apply file_keeps.
    + apply not_eq_sym, Hafter, elem_of_app. right. by left.
    + apply IH. intros y Hy. apply Hafter, elem_of_app. by left.
Qed.

(** Every entry is a folder or holds the data of an image under its
    derived name. *)
Lemma archiveOf_inv images (k : Js.str) (e : JSZip.entry) :
  archiveOf images !! k = Some e →
  e = JSZip.Folder
  ∨ ∃ img, img ∈ images ∧ k = fileName (expression img)
           ∧ e = JSZip.Data (Js.split 44 (base64 img) !! 1).
Proof.
  induction images as [|img images IH] using rev_ind; [done|].
  rewrite archiveOf_snoc. unfold addImage. intros Hk.
  apply file_inv in Hk as [[-> ->]|[Hk| ->]].
  - right. exists img. split; [|done]. apply elem_of_app. right. by left.
  - destruct (IH Hk) as [->|(x & Hx & -> & ->)]; [by left|].
    right. exists x. split; [|done]. apply elem_of_app. by left.
  - by left.
Qed.

(** Every derived name has an entry. *)
Lemma archiveOf_names images :
  list_to_set ((λ img, fileName (expression img)) <$> images)
  ⊆@{gset Js.str} dom (archiveOf images).
Proof.
  induction images as [|img images IH] using rev_ind; [apply empty_subseteq|].
  rewrite archiveOf_snoc, fmap_app, list_to_set_app_L.
  intros k Hk. apply elem_of_dom. apply elem_of_union in Hk as [Hk|Hk].
  - apply IH, elem_of_dom in Hk as [e He]. unfold addImage.
    destruct (decide (k = fileName (expression img))) as [->|Hne].
    + eexists. unfold JSZip.file. apply lookup_insert_eq.
    + exists e. by apply file_keeps.
  - cbn in Hk. rewrite (right_id_L ∅ (∪)) in Hk.
    apply elem_of_singleton in Hk as ->.
    eexists. unfold addImage, JSZip.file. apply lookup_insert_eq.
Qed.

(** With labels without slash, the entries of the archive are the derived
    names. *)
Lemma archiveOf_dom images :
  Forall (λ img, 47%N ∉ expression img) images →
  dom (archiveOf images)
  = list_to_set ((λ img, fileName (expression img)) <$> images).
Proof.
  induction images as [|img images IH] using rev_ind; intros Hflat;
    [apply dom_empty_L|].
  apply Forall_app in Hflat as [Hflat Himg]. rewrite Forall_singleton in Himg.
  rewrite archiveOf_snoc, fmap_app, list_to_set_app_L. unfold addImage.
  rewrite file_flat by (by apply fileName_no_slash).
  rewrite dom_insert_L, IH by done. cbn.
  rewrite (right_id_L ∅ (∪)). apply (comm_L (∪)).
Qed.

Lemma archiveOf_size images :
  Forall (λ img, 47%N ∉ expression img) images →
  NoDup ((λ img, fileName (expression img)) <$> images) →
  size (archiveOf images) = length images.
Proof.
  intros Hflat Hnd.
  rewrite <- size_dom, archiveOf_dom, size_list_to_set by done.
  apply length_fmap.
Qed.

Lemma archiveOf_lookup images img :
  NoDup ((λ img, fileName (expression img)) <$> images) →
  img ∈ images →
  archiveOf images !! fileName (expression img)
  = Some (JSZip.Data (Js.split 44 (base64 img) !! 1)).
Proof.
  intros Hnd Hin. apply list_elem_of_split in Hin as (before & after & ->).
  apply archiveOf_last. intros x Hx Heq.
  rewrite fmap_app in Hnd. apply NoDup_app in Hnd as (_ & _ & Hnd).
  cbn [fmap list_fmap] in Hnd. apply NoDup_cons in Hnd as [Hfresh _].
  apply Hfresh. rewrite <- Heq. apply list_elem_of_fmap. by exists x.
Qed.

(** The archive is generated when the library decodes the data of every
    image, and then holds what [bytes] gives for each entry. *)
Lemma generateAsync_archiveOf (decode : Js.str → option (list Byte.byte)) images :
  (∀ img, img ∈ images →
     is_Some (JSZip.bytes decode (JSZip.Data (Js.split 44 (base64 img) !! 1)))) →
  JSZip.generateAsync decode (archiveOf images)
  = Some ((λ e, default [] (JSZip.bytes decode e)) <$> archiveOf images).
Proof.
  intros Hok. unfold JSZip.generateAsync. rewrite bool_decide_eq_true_2; [done|].
  intros k e Hk. apply archiveOf_inv in Hk as [->|(img & Hin & _ & ->)].
  - by eexists.
  - by apply Hok.
Qed.

End Archive.

(** Two different labels with the same derived name: the archive for two
    images has one entry. *)
Lemma archive_entries_collide :
  ∃ zip,
    handleDownloadAll
      {| originalImage := Some sampleImage;
         generatedImages :=
           [{| expression := «"Surprised (Gasp)"»;
               base64 := «"data:image/png;base64,AA=="» |};
            {| expression := «"Surprised Gasp"»;
               base64 := «"data:image/png;base64,BB=="» |}];
         isLoading := false; error := None; progress := 100 |}
    = [download «"character_expressions.zip"» zip]
    ∧ size zip = 1
    ∧ size zip ≠ 2.
Proof.
  eexists. split; [reflexivity|]. split; [by vm_compute | by vm_compute].
Qed.

(** C5 (amended). For a non-empty sequence of N generated images whose
    derived entry names are pairwise distinct and whose labels contain no
    slash, each encoded string being a media-type prefix, a comma and a
    payload without comma that the library's base64 decoder accepts,
    [handleDownloadAll] builds, for [character_expressions.zip], an archive
    that is generated and has exactly N entries; the entry of an image is
    stored under its derived name and holds the decoded bytes of the
    payload, the media-type prefix up to and including the first comma
    being stripped, so its length is the decoded size of the payload. The
    decoder is any one that decodes the empty string to no bytes. *)
Theorem archive_entries (decode : Js.str → option (list Byte.byte)) (s : State) :
  decode [] = Some [] →
  generatedImages s ≠ [] →
  NoDup ((λ img, fileName (expression img)) <$> generatedImages s) →
  (∀ img, img ∈ generatedImages s → 47%N ∉ expression img) →
  (∀ img, img ∈ generatedImages s →
     ∃ d, afterFirst 44 (base64 img) = Some d ∧ (44%N ∉ d) ∧ is_Some (decode d)) →
  ∃ zip blob,
    handleDownloadAll s = [download «"character_expressions.zip"» zip]
    ∧ JSZip.generateAsync decode zip = Some blob
    ∧ size zip = length (generatedImages s)
    ∧ size blob = length (generatedImages s)
    ∧ ∀ img, img ∈ generatedImages s →
        ∃ d content,
          afterFirst 44 (base64 img) = Some d
          ∧ decode d = Some content
          ∧ blob !! fileName (expression img) = Some content
          ∧ length <$> blob !! fileName (expression img) = Some (length content).
Proof.
  intros Hempty Hne Hnd Hflat Hpayload.
  assert (∀ img, img ∈ generatedImages s →
            ∃ d content,
              afterFirst 44 (base64 img) = Some d ∧ decode d = Some content
              ∧ JSZip.bytes decode (JSZip.Data (Js.split 44 (base64 img) !! 1))
                = Some content) as Hbytes.
  { intros img Hin. destruct (Hpayload img Hin) as (d & Hd & Hcomma & content & Hc).
    exists d, content. split; [done|]. split; [done|].
    rewrite (split_payload 44 _ d Hd Hcomma). cbn [JSZip.bytes].
    destruct d; [congruence | done]. }
  eexists (archiveOf (generatedImages s)), _. split.
  { unfold handleDownloadAll. by destruct (generatedImages s). }
  split.
  { apply generateAsync_archiveOf. intros img Hin.
    destruct (Hbytes img Hin) as (d & content & _ & _ & ->). by eexists. }
  assert (size (archiveOf (generatedImages s)) = length (generatedImages s)) as Hsize
    by (apply archiveOf_size; [by apply Forall_forall | done]).
  split; [done|]. split; [by rewrite map_size_fmap|].
  intros img Hin. destruct (Hbytes img Hin) as (d & content & Hd & Hc & Hb).
  exists d, content. split; [done|]. split; [done|].
  rewrite lookup_fmap, (archiveOf_lookup _ _ Hnd Hin). cbn [fmap option_fmap option_map].
  by rewrite Hb.
Qed.

(** Two images with payloads of one and of three bytes. *)
Lemma archive_entries_witness :
  let s := {| originalImage := Some sampleImage;
              generatedImages :=
                [{| expression := «"Happy"»;
                    base64 := «"data:image/png;base64,AA=="» |};
                 {| expression := «"Surprised (Gasp)"»;
                    base64 := «"data:image/png;base64,TWFu"» |}];
              isLoading := false; error := None; progress := 100 |} in
  ∃ zip blob,
    handleDownloadAll s = [download «"character_expressions.zip"» zip]
    ∧ JSZip.generateAsync Base64.decode zip = Some blob
    ∧ size zip = 2
    ∧ size blob = 2
    ∧ ∀ img, img ∈ generatedImages s →
        ∃ d content,
          afterFirst 44 (base64 img) = Some d
          ∧ Base64.decode d = Some content
          ∧ blob !! fileName (expression img) = Some content
          ∧ length <$> blob !! fileName (expression img) = Some (length content).
Proof.
  intros s. apply (archive_entries Base64.decode s).
  - reflexivity.
  - discriminate.
  - apply (bool_decide_unpack _). vm_compute. exact I.
  - intros img Hin. cbn in Hin.
    apply elem_of_cons in Hin as [->|Hin];
      [|apply list_elem_of_singleton in Hin as ->];
      apply (bool_decide_unpack _); vm_compute; exact I.
  - intros img Hin. cbn in Hin.
    apply elem_of_cons in Hin as [->|Hin];
      [|apply list_elem_of_singleton in Hin as ->];
      (eexists; split; [reflexivity|]);
      (split; [apply (bool_decide_unpack _); vm_compute; exact I|]);
      vm_compute; by eexists.
Defined.

(** ** Running again after a failure *)

Section Rerun.

Variable E : list Js.str.

Implicit Types (w : World) (b : Batch) (img : GeneratedImage) (s : State).

Lemma values_elem (ps : list Promise) (results : list GeneratedImage) img :
  values ps = Some results → img ∈ results → Fulfilled img ∈ ps.
Proof.
  intros Hv Hin. apply mapM_Some in Hv.
  apply list_elem_of_lookup in Hin as [i Hi].
  destruct (Forall2_lookup_r _ _ _ _ _ Hv Hi) as (p & Hp & Hpv).
  destruct p; try done. injection Hpv as ->.
  apply list_elem_of_lookup. by exists i.
Qed.

(** Leaving the [await]: the promises stay, a handler that has already
    left does nothing, and the images shown afterwards are the old ones
    or values of this batch. *)
Lemma resume_spec b (cs : list Call) b' :
  resume b = (cs, b') →
  promises b' = promises b
  ∧ (awaiting b = false → awaiting b' = false ∧ cs = [])
  ∧ ∀ s img, img ∈ generatedImages (foldl (λ s c, assign c s) s cs) →
      img ∈ generatedImages s ∨ Fulfilled img ∈ promises b.
Proof.
  unfold resume. destruct (awaiting b) eqn:Haw.
  - destruct (values (promises b)) as [results|] eqn:Hv; intros [= <- <-].
    + split; [done|]. split; [done|]. intros s img Hin. right.
      by eapply values_elem.
    + split; [done|]. split; [done|]. intros s img Hin. by left.
  - intros [= <- <-]. split; [done|]. split; [done|]. intros s img Hin. by left.
Qed.

Lemma insert_keeps_fulfilled (ps : list Promise) (i : nat) (p : Promise) img :
  ps !! i = Some Pending → Fulfilled img ∈ ps → Fulfilled img ∈ <[i := p]> ps.
Proof.
  intros Hi Hin. apply list_elem_of_lookup in Hin as [j Hj].
  apply list_elem_of_lookup. exists j. rewrite list_lookup_insert_ne; [done|].
  intros ->. congruence.
Qed.

(** One call of a batch settles, whatever the state of the batch. *)
Lemma settle_spec (i : nat) (e : Js.str) (o : Outcome) b (cs : list Call) b' :
  promises b !! i = Some Pending →
  settle E i e o b = (cs, b') →
  (awaiting b = false →
     awaiting b' = false
     ∧ ∀ s, generatedImages (foldl (λ s c, assign c s) s cs) = generatedImages s)
  ∧ (∀ img, Fulfilled img ∈ promises b → Fulfilled img ∈ promises b')
  ∧ ∀ s img, img ∈ generatedImages (foldl (λ s c, assign c s) s cs) →
      img ∈ generatedImages s ∨ Fulfilled img ∈ promises b'.
Proof.
  intros Hi. unfold settle. destruct o as [p|reason].
  - match goal with |- context [resume ?x] =>
      destruct (resume x) as [cs0 b0] eqn:Hres end.
    intros [= <- <-]. apply resume_spec in Hres as (Hps & Hjoined & Himgs).
    cbn [promises awaiting] in Hps, Hjoined, Himgs.
    split; [|split].
    + intros Haw. destruct (Hjoined Haw) as [? ->]. by split.
    + intros img Hin. rewrite Hps. by apply insert_keeps_fulfilled.
    + intros s img Hin. cbn [foldl] in Hin.
      destruct (Himgs _ _ Hin) as [Hold|Hnew]; [by left | right; by rewrite Hps].
  - intros [= <- <-]. cbn [promises awaiting]. split; [|split].
    + intros ->. by split.
    + intros img Hin. by apply insert_keeps_fulfilled.
    + intros s img Hin. left. destruct (awaiting b); [by destruct reason | done].
Qed.

(** [handleGenerateExpressions] with an image, whatever the catalog. *)
Lemma generate_spec s (image : OriginalImage) :
  originalImage s = Some image →
  ∃ b, handleGenerateExpressions E s = (startCalls E image, Some b)
       ∧ completedCount b = 0
       ∧ promises b = replicate (length E) Pending.
Proof.
  intros Himg. unfold handleGenerateExpressions, startCalls, totalExpressions.
  rewrite Himg. unfold resume. cbn [awaiting promises].
  destruct E as [|e E']; cbn [length replicate].
  - eexists. by split.
  - eexists. by split.
Qed.

Lemma step_fromBatchesSince (r0 : nat) w (ev : Event) w' :
  step E w ev = Some w' → fromBatchesSince r0 w → fromBatchesSince r0 w'.
Proof.
  intros Hstep (Hlen & Hold & Himgs).
  destruct ev as [files|k result|k| | |r i o| |].
  - injection Hstep as <-. unfold handleFileChange.
    destruct (files !! 0) as [f|]; [|by rewrite perform_nil].
    by destruct (Js.startsWith _ _); [|rewrite perform_nil].
  - cbn in Hstep. destruct (reading w !! k) as [f|]; [|done].
    injection Hstep as <-. split; [done|]. split; [done|].
    intros img Hin. by apply elem_of_nil in Hin.
  - cbn in Hstep. destruct (reading w !! k) as [f|]; [|done].
    injection Hstep as <-. split; [done|]. split; [done|].
    intros img Hin. by apply elem_of_nil in Hin.
  - injection Hstep as <-. split; [done|]. split; [done|].
    intros img Hin. by apply elem_of_nil in Hin.
  - cbn in Hstep. destruct (originalImage (state w)) as [[image|f]|] eqn:Himg.
    + destruct (generate_spec (state w) image Himg) as (b & Hgen & _ & Hps).
      rewrite Hgen in Hstep. injection Hstep as <-. unfold fromBatchesSince.
      cbn [batches state perform withBatches option_list].
      split; [rewrite length_app; lia|]. split.
      * intros r b0 Hr Hb0. rewrite lookup_app_l in Hb0 by lia. by eapply Hold.
      * intros img Hin. exfalso. revert Hin. unfold startCalls.
        rewrite !foldl_app, foldl_requests.
        destruct (bool_decide (length E = 0)); cbn; apply not_elem_of_nil.
    + unfold handleGenerateExpressions in Hstep. rewrite Himg in Hstep.
      injection Hstep as <-. unfold fromBatchesSince.
      cbn [batches state perform withBatches option_list]. rewrite app_nil_r.
      split; [done|]. split; [done|].
      intros img Hin. by apply elem_of_nil in Hin.
    + unfold handleGenerateExpressions in Hstep. rewrite Himg in Hstep.
      injection Hstep as <-. cbn [option_list]. rewrite perform_nil.
      unfold withBatches. rewrite app_nil_r. by destruct w.
  - cbn in Hstep.
    destruct (batches w !! r) as [b|] eqn:Hb; [|done]. cbn in Hstep.
    destruct (promises b !! i) as [p|] eqn:Hp; [|done]. cbn in Hstep.
    destruct (E !! i) as [e|]; [|done]. cbn in Hstep.
    destruct p; try done.
    destruct (settle E i e o b) as [cs b'] eqn:Hsettle.
    injection Hstep as <-.
    destruct (settle_spec i e o b cs b' Hp Hsettle) as (Hjoined & Hkeep & Hnew).
    assert (r < length (batches w)) as Hr by (by eapply lookup_lt_Some).
    unfold fromBatchesSince. cbn [batches state perform withBatches].
    split; [by rewrite length_insert|]. split.
    + intros r1 b1 Hr1 Hb1. destruct (decide (r = r1)) as [<-|Hne].
      * rewrite list_lookup_insert_eq in Hb1 by done. injection Hb1 as <-.
        by apply Hjoined, (Hold r b).
      * rewrite list_lookup_insert_ne in Hb1 by done. by eapply Hold.
    + assert (∀ img, img ∈ generatedImages (state w) →
                ∃ r1 b1, r0 ≤ r1 ∧ <[r := b']> (batches w) !! r1 = Some b1
                         ∧ Fulfilled img ∈ promises b1) as Hstill.
      { intros img Hin. destruct (Himgs img Hin) as (r1 & b1 & Hr1 & Hb1 & Hf).
        destruct (decide (r = r1)) as [<-|Hne].
        - exists r, b'. rewrite list_lookup_insert_eq by done.
          split; [done|]. split; [done|]. apply Hkeep. congruence.
        - exists r1, b1. by rewrite list_lookup_insert_ne. }
      intros img Hin. destruct (decide (r < r0)) as [Hlt|Hge].
      * apply Hstill. destruct (Hjoined (Hold r b Hlt Hb)) as [_ Hsame].
        by rewrite Hsame in Hin.
      * destruct (Hnew _ _ Hin) as [Hin'|Hf]; [by apply Hstill|].
        exists r, b'. rewrite list_lookup_insert_eq by done.
        split; [lia|]. by split.
  - injection Hstep as <-.
    assert (state (perform (handleDownloadAll (state w)) w) = state w) as Hs
      by (unfold handleDownloadAll; by destruct (generatedImages (state w))).
    unfold fromBatchesSince. by rewrite Hs.
  - by rewrite (step_download_rejected _ _ _ Hstep).
Qed.

Lemma run_fromBatchesSince (r0 : nat) (evs : list Event) :
  ∀ w w', run E w evs = Some w' → fromBatchesSince r0 w → fromBatchesSince r0 w'.
Proof.
  induction evs as [|ev evs IH]; intros w w' Hrun Hinv.
  - by injection Hrun as <-.
  - cbn in Hrun. destruct (step E w ev) as [w1|] eqn:Hstep; [|done].
    cbn in Hrun. eapply IH; [exact Hrun|]. by eapply step_fromBatchesSince.
Qed.

End Rerun.

(** C6. When every earlier batch has ended (by a failure, say, possibly
    with calls still out), [handleGenerateExpressions] first resets the
    error, the generated images and the progress (to 0), then sends the
    requests, and starts a batch whose counter is 0 and whose calls are all
    pending. Whatever happens afterwards, late completions of the earlier
    batches included, every generated image on display is a fulfilment
    value of this batch or of a later one: none comes from the failed
    run. *)
Theorem rerun_starts_clean (E : list Js.str) (w : World) (image : OriginalImage) :
  originalImage (state w) = Some image →
  Forall (λ b, awaiting b = false) (batches w) →
  ∃ w1 b,
    step E w GenerateExpressions = Some w1
    ∧ callsDuring E w [GenerateExpressions] = Some (startCalls E image)
    ∧ progress (state w1) = 0%Z
    ∧ generatedImages (state w1) = []
    ∧ error (state w1) = None
    ∧ batches w1 = batches w ++ [b]
    ∧ completedCount b = 0
    ∧ promises b = replicate (length E) Pending
    ∧ ∀ evs w2 img,
        run E w1 evs = Some w2 →
        img ∈ generatedImages (state w2) →
        ∃ r b', length (batches w) ≤ r
                ∧ batches w2 !! r = Some b'
                ∧ Fulfilled img ∈ promises b'.
Proof.
  intros Himg Hended.
  destruct (generate_spec E (state w) image Himg) as (b & Hgen & Hcount & Hps).
  assert (step E w GenerateExpressions
          = Some (perform (startCalls E image) (withBatches (batches w ++ [b]) w)))
    as Hstep by (unfold step; by rewrite Hgen).
  destruct (state_started E image (state w)) as (_ & Hnone & Herr & Hzero & _).
  eexists _, b. split; [exact Hstep|]. split.
  { unfold callsDuring. cbn [run]. rewrite Hstep.
    cbn [mbind option_bind calls perform withBatches]. by rewrite drop_app_length. }
  cbn [state batches perform withBatches].
  split; [done|]. split; [done|]. split; [done|]. split; [done|].
  split; [done|]. split; [done|].
  intros evs w2 img Hrun Hin.
  assert (fromBatchesSince (length (batches w)) w2) as (_ & _ & Hfrom).
  { eapply run_fromBatchesSince; [exact Hrun|].
    unfold fromBatchesSince. cbn [state batches perform withBatches].
    split; [rewrite length_app; lia|]. split.
    - intros r b0 Hr Hb0. rewrite lookup_app_l in Hb0 by done.
      by eapply Forall_lookup_1 in Hended.
    - intros img0. rewrite Hnone. intros Hin0. by apply elem_of_nil in Hin0. }
  by apply Hfrom.
Qed.

(** After the failed batch of [failedWorld], whose error and progress are
    still shown and five of whose calls are still out. *)
Lemma rerun_starts_clean_witness :
  error (state failedWorld) = Some «"overloaded"»
  ∧ progress (state failedWorld) = 25%Z
  ∧ ∃ w1 b,
      step sampleCatalog failedWorld GenerateExpressions = Some w1
      ∧ callsDuring sampleCatalog failedWorld [GenerateExpressions]
        = Some (startCalls sampleCatalog sampleImage)
      ∧ progress (state w1) = 0%Z
      ∧ generatedImages (state w1) = []
      ∧ error (state w1) = None
      ∧ batches w1 = batches failedWorld ++ [b]
      ∧ completedCount b = 0
      ∧ promises b = replicate (length sampleCatalog) Pending
      ∧ ∀ evs w2 img,
          run sampleCatalog w1 evs = Some w2 →
          img ∈ generatedImages (state w2) →
          ∃ r b', length (batches failedWorld) ≤ r
                  ∧ batches w2 !! r = Some b'
                  ∧ Fulfilled img ∈ promises b'.
Proof.
  split; [reflexivity|]. split; [reflexivity|].
  apply (rerun_starts_clean sampleCatalog failedWorld sampleImage).
  - reflexivity.
  - apply (bool_decide_unpack _). vm_compute. exact I.
Defined.

(** * Further properties of the handlers *)

(** ** Entry names *)

Section EntryNames.

Implicit Types (s : Js.str) (c : N).

Lemma replaceFrom_spaces_plain s :
  ∀ skip, Forall (λ c, Js.isParen c = false) s →
    Forall plainUnit (Js.replaceFrom Js.spacePattern «"_"» skip s).
Proof.
  induction s as [|c r IH]; intros skip Hs; [constructor|].
  apply Forall_cons in Hs as [Hc Hr]. destruct skip as [|k]; cbn [Js.replaceFrom].
  - unfold Js.spacePattern at 1. cbn [Js.spaceRun].
    destruct (Js.isWhiteSpace c) eqn:Hw.
    + apply Forall_app. split; [by repeat constructor | by apply IH].
    + constructor; [done | by apply IH].
  - by apply IH.
Qed.

Lemma replaceFrom_parens_gone s :
  Forall (λ c, Js.isParen c = false) (Js.replaceFrom Js.parenPattern «""» 0 s).
Proof.
  induction s as [|c r IH]; [constructor|]. cbn [Js.replaceFrom Js.parenPattern].
  destruct (Js.isParen c) eqn:Hc; [exact IH | by constructor].
Qed.

Lemma replaceFrom_plain (re : Js.pattern) (by_ : Js.str) s :
  (∀ c r, plainUnit c → re (c :: r) = 0) →
  Forall plainUnit s → Js.replaceFrom re by_ 0 s = s.
Proof.
  intros Hre. induction 1 as [|c r Hc _ IH]; [done|].
  cbn [Js.replaceFrom]. by rewrite (Hre c r Hc), IH.
Qed.

End EntryNames.

(** X1. A derived entry name contains neither white space nor a
    parenthesis, ends with [.png], and is at most four units longer than
    the label. *)
Theorem fileName_plain (label : Js.str) :
  Forall plainUnit (fileName label)
  ∧ «".png"» `suffix_of` fileName label
  ∧ length (fileName label) ≤ length label + 4.
Proof.
  unfold fileName, Js.replaceAll. split; [|split].
  - apply Forall_app. split; [|by repeat constructor].
    apply replaceFrom_spaces_plain, replaceFrom_parens_gone.
  - by eexists.
  - rewrite length_app. change (length «".png"») with 4.
    assert (∀ s skip, length (Js.replaceFrom Js.spacePattern «"_"» skip s) ≤ length s)
      as Hspace.
    { induction s as [|c r IH]; intros skip; [done|].
      destruct skip as [|k]; cbn [Js.replaceFrom length].
      - unfold Js.spacePattern at 1. cbn [Js.spaceRun].
        destruct (Js.isWhiteSpace c).
        + pose proof (IH (Js.spaceRun r)). rewrite length_app.
          change (length «"_"») with 1. lia.
        + pose proof (IH 0). cbn [length]. lia.
      - specialize (IH k). lia. }
    assert (∀ s, length (Js.replaceFrom Js.parenPattern «""» 0 s) ≤ length s)
      as Hparen.
    { induction s as [|c r IH]; [done|]. cbn [Js.replaceFrom Js.parenPattern length].
      destruct (Js.isParen c).
      - change (length (Js.replaceFrom Js.parenPattern «""» 0 r) ≤ S (length r)). lia.
      - cbn [length]. lia. }
    specialize (Hspace (Js.replaceFrom Js.parenPattern «""» 0 label) 0).
    specialize (Hparen label). lia.
Qed.

(** X2. A label without white space and parentheses is its own entry name,
    up to the extension. *)
Theorem fileName_of_plain_label (label : Js.str) :
  Forall plainUnit label → fileName label = label ++ «".png"».
Proof.
  intros Hl. unfold fileName, Js.replaceAll.
  rewrite (replaceFrom_plain Js.parenPattern «""» label);
    [|intros c r [_ Hp]; cbn; by rewrite Hp|done].
  rewrite (replaceFrom_plain Js.spacePattern «"_"» label); [done| |done].
  intros c r [Hw _]. unfold Js.spacePattern. cbn. by rewrite Hw.
Qed.

Lemma fileName_of_plain_label_witness :
  fileName «"Laughing"» = «"Laughing"» ++ «".png"».
Proof.
  apply (fileName_of_plain_label «"Laughing"»).
  apply (bool_decide_unpack _). vm_compute. exact I.
Defined.

(** ** Colliding entry names *)

(** X3. When several images share a derived name, the entry of that name
    holds the data of the last of them in the sequence; every derived name
    has an entry. When no label contains a slash, the entries are exactly
    the distinct derived names, hence at most one per image (for a name
    with a slash the library also adds an entry for each folder on its
    path). *)
Theorem archive_keeps_last (before after : list GeneratedImage)
    (img : GeneratedImage) :
  (∀ x, x ∈ after → fileName (expression x) ≠ fileName (expression img)) →
  archiveOf (before ++ img :: after) !! fileName (expression img)
  = Some (JSZip.Data (Js.split 44 (base64 img) !! 1))
  ∧ list_to_set ((λ x, fileName (expression x)) <$> (before ++ img :: after))
    ⊆@{gset Js.str} dom (archiveOf (before ++ img :: after))
  ∧ (Forall (λ x, 47%N ∉ expression x) (before ++ img :: after) →
     dom (archiveOf (before ++ img :: after))
     = list_to_set ((λ x, fileName (expression x)) <$> (before ++ img :: after))
     ∧ size (archiveOf (before ++ img :: after)) ≤ length (before ++ img :: after)).
Proof.
  intros Hafter. split; [|split].
  - by apply archiveOf_last.
  - apply archiveOf_names.
  - intros Hflat. split; [by apply archiveOf_dom|].
    revert Hflat. generalize (before ++ img :: after). intros images.
    induction images as [|x images IH] using rev_ind; intros Hflat; [done|].
    apply Forall_app in Hflat as [Hflat Hx]. rewrite Forall_singleton in Hx.
    rewrite archiveOf_snoc, length_app. unfold addImage.
    rewrite file_flat by (by apply fileName_no_slash).
    rewrite map_size_insert. cbn [length]. specialize (IH Hflat).
    destruct (archiveOf images !! fileName (expression x)); cbn; lia.
Qed.

(** The two labels of the colliding example, in both orders; the label of
    the second case has a slash, and the archive a third entry. *)
Lemma archive_keeps_last_witness :
  archiveOf ([] ++ {| expression := «"Surprised (Gasp)"»;
                      base64 := «"data:image/png;base64,AA=="» |}
                :: [{| expression := «"Sad"»;
                       base64 := «"data:image/png;base64,BB=="» |}])
    !! fileName «"Surprised (Gasp)"»
  = Some (JSZip.Data (Some «"AA=="»))
  ∧ archiveOf ([{| expression := «"Surprised (Gasp)"»;
                   base64 := «"data:image/png;base64,AA=="» |}]
               ++ {| expression := «"Surprised Gasp"»;
                     base64 := «"data:image/png;base64,BB=="» |} :: [])
      !! fileName «"Surprised Gasp"»
    = Some (JSZip.Data (Some «"BB=="»))
  ∧ size (archiveOf ([{| expression := «"Surprised (Gasp)"»;
                         base64 := «"data:image/png;base64,AA=="» |}]
                     ++ {| expression := «"Surprised Gasp"»;
                           base64 := «"data:image/png;base64,BB=="» |} :: []))
    ≤ 2
  ∧ size (archiveOf [{| expression := «"Happy/Sad"»;
                        base64 := «"data:image/png;base64,AA=="» |}]) = 2.
Proof.
  split.
  - apply (archive_keeps_last []
             [{| expression := «"Sad"»; base64 := «"data:image/png;base64,BB=="» |}]
             {| expression := «"Surprised (Gasp)"»;
                base64 := «"data:image/png;base64,AA=="» |}).
    intros x Hx. apply list_elem_of_singleton in Hx as ->. by vm_compute.
  - destruct (archive_keeps_last
                [{| expression := «"Surprised (Gasp)"»;
                    base64 := «"data:image/png;base64,AA=="» |}] []
                {| expression := «"Surprised Gasp"»;
                   base64 := «"data:image/png;base64,BB=="» |})
      as (Hlast & _ & Hflat).
    { intros x Hx. by apply elem_of_nil in Hx. }
    split; [exact Hlast|]. split; [|by vm_compute].
    apply Hflat. apply (bool_decide_unpack _). vm_compute. exact I.
Defined.

(** ** What every reachable world satisfies *)

Section Sound.

Variable E : list Js.str.

Implicit Types (w : World) (b : Batch) (ps : list Promise) (img : GeneratedImage).

Lemma fulfilledCount_replicate (n : nat) : fulfilledCount (replicate n Pending) = 0.
Proof.
  unfold fulfilledCount. induction n as [|n IH]; [done|].
  cbn [replicate]. by rewrite filter_cons_False.
Qed.

(** Settling a pending promise: the number of fulfilled promises grows by
    one on fulfilment and stays on rejection; before, it was below the
    number of promises. *)
Lemma fulfilledCount_settle ps (i : nat) (p : Promise) :
  ps !! i = Some Pending →
  fulfilledCount (<[i := p]> ps)
  = (if isFulfilled p then S (fulfilledCount ps) else fulfilledCount ps)
  ∧ fulfilledCount ps < length ps.
Proof.
  unfold fulfilledCount. revert i. induction ps as [|q ps IH]; intros i Hi; [done|].
  destruct i as [|i].
  - injection Hi as ->. change (<[0 := p]> (Pending :: ps)) with (p :: ps).
    rewrite (filter_cons_False _ Pending) by done. cbn [length].
    pose proof (length_filter (λ p, isFulfilled p = true) ps).
    split; [|lia]. rewrite filter_cons. by destruct (decide _), (isFulfilled p).
  - cbn in Hi. destruct (IH i Hi) as [IH1 IH2].
    change (<[S i := p]> (q :: ps)) with (q :: <[i := p]> ps).
    rewrite !filter_cons.
    destruct (decide (isFulfilled q = true)); cbn [length]; rewrite IH1;
      (split; [by destruct (isFulfilled p) | lia]).
Qed.

(** What [Promise.all] resolves with, for a well-kept batch: the catalog's
    labels in order, as PNG data URLs. *)
Lemma values_shaped b (results : list GeneratedImage) :
  batchOk E b → values (promises b) = Some results →
  expression <$> results = E
  ∧ Forall (λ img, «"data:image/png;base64,"» `prefix_of` base64 img) results.
Proof.
  intros (Hlen & _ & Hvals) Hv. apply mapM_Some in Hv.
  pose proof (Forall2_length _ _ _ Hv) as Hl.
  assert (∀ i img, results !! i = Some img →
            E !! i = Some (expression img)
            ∧ «"data:image/png;base64,"» `prefix_of` base64 img) as Hres.
  { intros i img Hi. destruct (Forall2_lookup_r _ _ _ _ _ Hv Hi) as (p & Hp & Hpv).
    destruct p; try done. injection Hpv as ->. by apply Hvals. }
  split.
  - apply list_eq. intros i. rewrite list_lookup_fmap.
    destruct (results !! i) as [img|] eqn:Hi; cbn.
    + by destruct (Hres i img Hi) as [-> _].
    + symmetry. apply lookup_ge_None. apply lookup_ge_None in Hi. lia.
  - apply Forall_lookup. intros i img Hi. by destruct (Hres i img Hi).
Qed.

Lemma startCalls_downloadOk (image : OriginalImage) :
  Forall (downloadOk E) (startCalls E image).
Proof.
  unfold startCalls. repeat (constructor; [done|]).
  apply Forall_app. split; [by apply Forall_fmap, Forall_true|].
  destruct (bool_decide _); by repeat constructor.
Qed.

Lemma step_sound w (ev : Event) w' :
  step E w ev = Some w' → sound E w → sound E w'.
Proof.
  intros Hstep (Hbs & Hres & Hprog & Hcalls).
  destruct ev as [files|k result|k| | |r i o| |].
  - injection Hstep as <-. unfold handleFileChange.
    destruct (files !! 0) as [f|]; [|by rewrite perform_nil].
    destruct (Js.startsWith _ _); [|by rewrite perform_nil].
    split; [done|]. split; [done|]. split; [done|].
    cbn. apply Forall_app. split; [done|]. by repeat constructor.
  - cbn in Hstep. destruct (reading w !! k) as [f|]; [|done].
    injection Hstep as <-. split; [done|]. split; [by left|]. split; [by left|].
    cbn. apply Forall_app. split; [done|]. by repeat constructor.
  - cbn in Hstep. destruct (reading w !! k) as [f|]; [|done].
    injection Hstep as <-. split; [done|]. split; [by left|]. split; [by left|].
    cbn. apply Forall_app. split; [done|]. by repeat constructor.
  - injection Hstep as <-. split; [done|]. split; [by left|]. split; [by left|].
    cbn. apply Forall_app. split; [done|]. by repeat constructor.
  - cbn in Hstep. destruct (originalImage (state w)) as [[image|f]|] eqn:Himg.
    + destruct (generate_spec E (state w) image Himg) as (b & Hgen & Hcount & Hps).
      rewrite Hgen in Hstep. injection Hstep as <-.
      destruct (state_started E image (state w)) as (_ & Hnone & _ & Hzero & _).
      unfold sound. cbn [batches state calls perform withBatches option_list].
      split.
      { apply Forall_app. split; [done|]. apply Forall_singleton.
        split; [|split].
        - by rewrite Hps, length_replicate.
        - by rewrite Hcount, Hps, fulfilledCount_replicate.
        - intros j v. rewrite Hps. intros Hj.
          apply lookup_replicate in Hj as [? _]. done. }
      split; [by left; rewrite Hnone|]. split; [by left|].
      apply Forall_app. split; [done | apply startCalls_downloadOk].
    + unfold handleGenerateExpressions in Hstep. rewrite Himg in Hstep.
      injection Hstep as <-. unfold sound.
      cbn [batches state calls perform withBatches option_list]. rewrite app_nil_r.
      split; [done|]. split; [by left|]. split; [by left|].
      apply Forall_app. split; [done|]. by repeat constructor.
    + unfold handleGenerateExpressions in Hstep. rewrite Himg in Hstep.
      injection Hstep as <-. cbn [option_list]. rewrite perform_nil.
      unfold withBatches. rewrite app_nil_r. by destruct w.
  - cbn in Hstep.
    destruct (batches w !! r) as [b|] eqn:Hb; [|done]. cbn in Hstep.
    destruct (promises b !! i) as [p|] eqn:Hp; [|done]. cbn in Hstep.
    destruct (E !! i) as [e|] eqn:He; [|done]. cbn in Hstep.
    destruct p; try done.
    pose proof (Forall_lookup_1 _ _ _ _ Hbs Hb) as (Hlen & Hcount & Hvals).
    destruct o as [newBase64|reason].
    + destruct (fulfilledCount_settle (promises b) i
                  (Fulfilled {| expression := e;
                                base64 := «"data:image/png;base64,"» ++ newBase64 |}) Hp)
        as [Hcount' Hlt].
      cbn [isFulfilled] in Hcount'.
      assert (∀ aw, batchOk E
                {| completedCount := S (completedCount b);
                   promises := <[i := Fulfilled
                                   {| expression := e;
                                      base64 := «"data:image/png;base64,"» ++ newBase64 |}]>
                                 (promises b);
                   awaiting := aw |}) as Hok.
      { intros aw. split; [cbn [promises]; by rewrite length_insert|].
        split; [cbn [promises completedCount]; congruence|].
        intros j img. cbn [promises]. destruct (decide (i = j)) as [<-|Hne].
        - rewrite list_lookup_insert_eq by (by eapply lookup_lt_Some).
          intros [= <-]. split; [done|]. by exists newBase64.
        - rewrite list_lookup_insert_ne by done. apply Hvals. }
      assert (1 ≤ S (completedCount b) ≤ length E) as Hk by lia.
      unfold settle, resume in Hstep. cbn [awaiting promises completedCount] in Hstep.
      destruct (awaiting b) eqn:Haw.
      * destruct (values _) as [results|] eqn:Hv.
        -- injection Hstep as <-. unfold sound.
           cbn [batches state calls perform withBatches foldl assign
                generatedImages progress].
           split; [by apply Forall_insert|].
           split; [right; by apply (values_shaped _ results (Hok true))|].
           split; [right; by exists (S (completedCount b))|].
           apply Forall_app. split; [done|]. by repeat constructor.
        -- injection Hstep as <-. unfold sound.
           cbn [batches state calls perform withBatches foldl assign
                generatedImages progress].
           split; [by apply Forall_insert|]. split; [done|].
           split; [right; by exists (S (completedCount b))|].
           apply Forall_app. split; [done|]. by repeat constructor.
      * injection Hstep as <-. unfold sound.
        cbn [batches state calls perform withBatches foldl assign
             generatedImages progress].
        split; [by apply Forall_insert|]. split; [done|].
        split; [right; by exists (S (completedCount b))|].
        apply Forall_app. split; [done|]. by repeat constructor.
    + destruct (fulfilledCount_settle (promises b) i (Rejected reason) Hp)
        as [Hcount' _].
      cbn [isFulfilled] in Hcount'.
      assert (batchOk E {| completedCount := completedCount b;
                           promises := <[i := Rejected reason]> (promises b);
                           awaiting := false |}) as Hok.
      { split; [cbn [promises]; by rewrite length_insert|].
        split; [cbn [promises completedCount]; congruence|].
        intros j img. cbn [promises]. destruct (decide (i = j)) as [<-|Hne].
        - by rewrite list_lookup_insert_eq by (by eapply lookup_lt_Some).
        - rewrite list_lookup_insert_ne by done. apply Hvals. }
      unfold settle in Hstep. injection Hstep as <-. unfold sound.
      cbn [batches state calls perform withBatches].
      split; [by apply Forall_insert|].
      destruct (awaiting b); [destruct reason|];
        cbn [report foldl assign generatedImages progress].
      * split; [done|]. split; [done|].
        apply Forall_app. split; [done|]. by repeat constructor.
      * split; [done|]. split; [done|].
        apply Forall_app. split; [done|]. by repeat constructor.
      * split; [done|]. split; [done|]. by rewrite app_nil_r.
  - injection Hstep as <-. unfold handleDownloadAll.
    destruct (generatedImages (state w)) as [|g images] eqn:Hg;
      [rewrite perform_nil; unfold sound; by rewrite Hg|].
    unfold sound. cbn [batches state calls perform withBatches foldl assign].
    split; [done|]. split; [by rewrite Hg|]. split; [done|].
    apply Forall_app. split; [done|]. repeat constructor.
    exists (g :: images). split; [done|]. split; [|done].
    by destruct Hres as [?|[? _]].
  - by rewrite (step_download_rejected _ _ _ Hstep).
Qed.

Lemma run_sound (evs : list Event) :
  ∀ w w', run E w evs = Some w' → sound E w → sound E w'.
Proof.
  induction evs as [|ev evs IH]; intros w w' Hrun Hinv.
  - by injection Hrun as <-.
  - cbn in Hrun. destruct (step E w ev) as [w1|] eqn:Hstep; [|done].
    cbn in Hrun. eapply IH; [exact Hrun|]. by eapply step_sound.
Qed.

Lemma initial_sound : sound E initialWorld.
Proof. split; [constructor|]. split; [by left|]. split; [by left | constructor]. Qed.

End Sound.

(** X4. Whatever happens from the initial state on (uploads, resets,
    batches started again before earlier calls have come back, failures,
    calls completing in any order), the generated images are either empty
    or exactly one image per catalog label, in catalog order, each encoded
    as a PNG data URL: a partial or mixed-up list is never shown. *)
Theorem results_always_whole (E : list Js.str) (evs : list Event) (w : World) :
  run E initialWorld evs = Some w →
  generatedImages (state w) = []
  ∨ (expression <$> generatedImages (state w) = E
     ∧ length (generatedImages (state w)) = length E
     ∧ Forall (λ img, «"data:image/png;base64,"» `prefix_of` base64 img)
         (generatedImages (state w))).
Proof.
  intros Hrun.
  destruct (run_sound E evs _ _ Hrun (initial_sound E)) as (_ & [Hnil|[HE Hpng]] & _);
    [by left | right].
  split; [done|]. split; [|done]. by rewrite <- HE, length_fmap.
Qed.

Lemma results_always_whole_witness :
  ∃ w,
    run sampleCatalog initialWorld sampleSession = Some w
    ∧ (generatedImages (state w) = []
       ∨ (expression <$> generatedImages (state w) = sampleCatalog
          ∧ length (generatedImages (state w)) = length sampleCatalog
          ∧ Forall (λ img, «"data:image/png;base64,"» `prefix_of` base64 img)
              (generatedImages (state w)))).
Proof.
  destruct (run sampleCatalog initialWorld sampleSession) as [w|] eqn:Hrun;
    [|by vm_compute in Hrun].
  exists w. split; [reflexivity|].
  exact (results_always_whole sampleCatalog sampleSession w Hrun).
Defined.

(** X5. Every archive ever offered for download is named
    [character_expressions.zip]; the derived name of every catalog label
    is among its entries, and every other entry is a folder. When no label
    contains a slash, the entries are exactly the derived names of the
    catalog labels, one entry per label when these names are pairwise
    distinct. *)
Theorem archives_cover_catalog (E : list Js.str) (evs : list Event) (w : World)
    (filename : Js.str) (zip : gmap Js.str JSZip.entry) :
  run E initialWorld evs = Some w →
  download filename zip ∈ calls w →
  filename = «"character_expressions.zip"»
  ∧ list_to_set (fileName <$> E) ⊆@{gset Js.str} dom zip
  ∧ (∀ k e, zip !! k = Some e → e = JSZip.Folder ∨ k ∈ fileName <$> E)
  ∧ (Forall (λ label, 47%N ∉ label) E →
     dom zip = list_to_set (fileName <$> E)
     ∧ (NoDup (fileName <$> E) → size zip = length E)).
Proof.
  intros Hrun Hin.
  destruct (run_sound E evs _ _ Hrun (initial_sound E)) as (_ & _ & _ & Hcalls).
  eapply Forall_forall in Hcalls; [|exact Hin].
  destruct Hcalls as (-> & images & _ & HE & ->).
  assert ((λ img, fileName (expression img)) <$> images = fileName <$> E) as Hnames
    by (by rewrite <- HE, <- list_fmap_compose).
  split; [done|]. split; [|split].
  - rewrite <- Hnames. apply archiveOf_names.
  - intros k e Hk. apply archiveOf_inv in Hk as [->|(img & Himg & -> & _)]; [by left|].
    right. rewrite <- Hnames. apply list_elem_of_fmap. by exists img.
  - intros Hflat.
    assert (Forall (λ img, 47%N ∉ expression img) images) as Hflat'.
    { apply Forall_forall. intros img Himg.
      eapply Forall_forall in Hflat; [exact Hflat|].
      rewrite <- HE. apply list_elem_of_fmap. by exists img. }
    split.
    + by rewrite archiveOf_dom, Hnames.
    + intros Hnd. rewrite archiveOf_size by (by rewrite ?Hnames).
      by rewrite <- HE, length_fmap.
Qed.

Lemma archives_cover_catalog_witness :
  ∃ w zip,
    run sampleCatalog initialWorld sampleSession = Some w
    ∧ download «"character_expressions.zip"» zip ∈ calls w
    ∧ dom zip = list_to_set (fileName <$> sampleCatalog)
    ∧ size zip = 8.
Proof.
  destruct (run sampleCatalog initialWorld sampleSession) as [w|] eqn:Hrun;
    [|by vm_compute in Hrun].
  assert (∃ zip, last (calls w) = Some (download «"character_expressions.zip"» zip))
    as [zip Hlast].
  { revert Hrun. vm_compute. intros [= <-]. eexists. reflexivity. }
  assert (download «"character_expressions.zip"» zip ∈ calls w) as Hin.
  { apply last_Some in Hlast as [l ->]. apply elem_of_app. right. by left. }
  exists w, zip. split; [reflexivity|]. split; [exact Hin|].
  destruct (archives_cover_catalog sampleCatalog sampleSession w _ zip Hrun Hin)
    as (_ & _ & _ & Hflat).
  destruct Hflat as [Hdom Hsize].
  { apply (bool_decide_unpack _). vm_compute. exact I. }
  split; [exact Hdom|]. apply Hsize.
  apply (bool_decide_unpack _). vm_compute. exact I.
Defined.

(** X6. With a catalog of eight labels the progress shown is, at every
    moment, one of the percentages of zero to eight completed calls, hence
    between 0 and 100. *)
Theorem progress_in_range (E : list Js.str) (evs : list Event) (w : World) :
  length E = 8 →
  run E initialWorld evs = Some w →
  (0 ≤ progress (state w) ≤ 100)%Z
  ∧ ∃ k, k ≤ 8 ∧ progress (state w) = roundHalfUp (100 * Z.of_nat k) 8.
Proof.
  intros HE Hrun.
  destruct (run_sound E evs _ _ Hrun (initial_sound E)) as (_ & _ & Hprog & _).
  assert (∃ k, k ≤ 8 ∧ progress (state w) = roundHalfUp (100 * Z.of_nat k) 8)
    as (k & Hk & Hp).
  { destruct Hprog as [->|(k & Hk & ->)]; [exists 0; split; [lia | reflexivity]|].
    exists k. rewrite HE in Hk. split; [lia|]. by apply percent_eight. }
  split; [|by exists k]. rewrite Hp. clear Hp.
  do 9 (destruct k as [|k]; [by vm_compute|]). lia.
Qed.

Lemma progress_in_range_witness :
  ∃ w,
    run sampleCatalog initialWorld sampleSession = Some w
    ∧ (0 ≤ progress (state w) ≤ 100)%Z
    ∧ ∃ k, k ≤ 8 ∧ progress (state w) = roundHalfUp (100 * Z.of_nat k) 8.
Proof.
  destruct (run sampleCatalog initialWorld sampleSession) as [w|] eqn:Hrun;
    [|by vm_compute in Hrun].
  exists w. split; [reflexivity|].
  exact (progress_in_range sampleCatalog sampleSession w eq_refl Hrun).
Defined.

(** ** One batch at a time *)

Section OneBatch.

Variable E : list Js.str.

Implicit Types (w : World) (b : Batch) (bs : list Batch).

Lemma suspended_app bs b :
  suspended (bs ++ [b]) = suspended bs + (if awaiting b then 1 else 0).
Proof.
  unfold suspended. rewrite filter_app, length_app, filter_cons.
  by destruct (decide _), (awaiting b).
Qed.

Lemma suspended_insert bs (r : nat) b b' :
  bs !! r = Some b →
  suspended (<[r := b']> bs) + (if awaiting b then 1 else 0)
  = suspended bs + (if awaiting b' then 1 else 0).
Proof.
  unfold suspended. revert r. induction bs as [|x bs IH]; intros r Hr; [done|].
  destruct r as [|r].
  - injection Hr as ->. change (<[0 := b']> (b :: bs)) with (b' :: bs).
    rewrite !filter_cons.
    destruct (decide (awaiting b' = true)), (decide (awaiting b = true));
      destruct (awaiting b), (awaiting b'); cbn [length]; try done; lia.
  - cbn in Hr. specialize (IH r Hr).
    change (<[S r := b']> (x :: bs)) with (x :: <[r := b']> bs).
    rewrite !filter_cons. destruct (decide (awaiting x = true)); cbn [length]; lia.
Qed.

(** Through the rendered controls, a batch is suspended only while the
    loading flag is on, and only one; and the flag is on only while a
    batch is suspended, as long as no read has failed. *)
Lemma step_one_batch w (ev : Event) w' :
  offered (state w) ev = true →
  step E w ev = Some w' →
  suspended (batches w) ≤ (if isLoading (state w) then 1 else 0) →
  suspended (batches w') ≤ (if isLoading (state w') then 1 else 0)
  ∧ (¬ isFailedRead ev →
     (∀ f, originalImage (state w) ≠ Some (Unloaded f)) →
     suspended (batches w) = (if isLoading (state w) then 1 else 0) →
     (∀ f, originalImage (state w') ≠ Some (Unloaded f))
     ∧ suspended (batches w') = (if isLoading (state w') then 1 else 0)).
Proof.
  intros Hoff Hstep Hinv. destruct ev as [files|k result|k| | |r i o| |].
  - injection Hstep as <-. unfold handleFileChange.
    destruct (files !! 0) as [f|]; [|by rewrite perform_nil].
    by destruct (Js.startsWith _ _); [|rewrite perform_nil].
  - cbn in Hstep. destruct (reading w !! k) as [f|]; [|done].
    injection Hstep as <-. split; [done|]. by intros _ _ Heq.
  - cbn in Hstep. destruct (reading w !! k) as [f|]; [|done].
    injection Hstep as <-. split; [done|]. by intros Hev.
  - injection Hstep as <-. split; [done|]. by intros _ _ Heq.
  - cbn in Hoff. apply andb_true_iff in Hoff as [Himg Hload].
    apply bool_decide_eq_true in Himg. apply negb_true_iff in Hload.
    rewrite Hload in Hinv.
    destruct (originalImage (state w)) as [[image|f]|] eqn:Hsome; [| |done].
    + rewrite (step_generate E (λ _, Reject Nullish) w image Hsome) in Hstep.
      injection Hstep as <-.
      destruct (state_started E image (state w)) as (Hsame & _ & _ & _ & Hl).
      cbn [batches state perform withBatches].
      rewrite Hl, Hsame, suspended_app, Hload.
      assert ((if awaiting (batchAfter E (λ _, Reject Nullish) []) then 1 else 0)
              = (if bool_decide (length E ≠ 0) then 1 else 0)) as ->.
      { unfold batchAfter. cbn [awaiting resolved filter list_filter length].
        destruct E as [|e E']; cbn [length].
        - rewrite (bool_decide_eq_false_2 (0 < 0)) by lia.
          rewrite andb_false_r. by rewrite bool_decide_eq_false_2 by (intros ?; done).
        - rewrite (bool_decide_eq_true_2 (0 < S (length E'))) by lia.
          rewrite (bool_decide_eq_true_2 (0 = 0)) by done.
          by rewrite bool_decide_eq_true_2. }
      split; [lia|]. intros _ Hno Heq. split; [|lia].
      intros f. rewrite Hsome. discriminate.
    + unfold step, handleGenerateExpressions in Hstep. rewrite Hsome in Hstep.
      injection Hstep as <-.
      cbn [batches state perform withBatches option_list foldl assign isLoading].
      rewrite app_nil_r. split; [lia|]. intros _ Hno. by destruct (Hno f).
  - cbn in Hstep.
    destruct (batches w !! r) as [b|] eqn:Hb; [|done]. cbn in Hstep.
    destruct (promises b !! i) as [p|] eqn:Hp; [|done]. cbn in Hstep.
    destruct (E !! i) as [e|] eqn:He; [|done]. cbn in Hstep.
    destruct p; try done.
    destruct (settle E i e o b) as [cs b'] eqn:Hsettle. injection Hstep as <-.
    pose proof (suspended_insert (batches w) r b b' Hb) as Hins.
    assert (originalImage (foldl (λ s c, assign c s) (state w) cs)
            = originalImage (state w)
            ∧ (awaiting b' = true →
               isLoading (foldl (λ s c, assign c s) (state w) cs)
               = isLoading (state w))
            ∧ (awaiting b = true → awaiting b' = false →
               isLoading (foldl (λ s c, assign c s) (state w) cs) = false)
            ∧ (awaiting b = false →
               awaiting b' = false
               ∧ isLoading (foldl (λ s c, assign c s) (state w) cs)
                 = isLoading (state w)))
      as (Horig & Hstill & Hends & Hleft).
    { unfold settle, resume in Hsettle.
      cbn [awaiting promises completedCount] in Hsettle.
      destruct o as [newBase64|reason]; destruct (awaiting b) eqn:Haw.
      - destruct (values _) as [results|]; by injection Hsettle as <- <-.
      - by injection Hsettle as <- <-.
      - injection Hsettle as <- <-. by destruct reason.
      - by injection Hsettle as <- <-. }
    cbn [batches state perform withBatches]. rewrite Horig.
    assert (suspended (batches w) ≥ (if awaiting b then 1 else 0)) as Hone.
    { unfold suspended. apply list_elem_of_lookup_2 in Hb.
      destruct (awaiting b) eqn:Haw; [|lia].
      assert (b ∈ filter (λ b, awaiting b = true) (batches w)) as Hin
        by (by apply list_elem_of_filter).
      destruct (filter _ (batches w)); [by apply elem_of_nil in Hin | cbn; lia]. }
    destruct (awaiting b) eqn:Hawb; destruct (awaiting b') eqn:Hawb'.
    + rewrite (Hstill eq_refl). revert Hinv. destruct (isLoading (state w));
        (split; [lia|]; intros _ Hno Heq; split; [exact Hno | lia]).
    + rewrite (Hends eq_refl eq_refl). revert Hinv. destruct (isLoading (state w));
        (split; [lia|]; intros _ Hno Heq; split; [exact Hno | lia]).
    + by destruct (Hleft eq_refl).
    + destruct (Hleft eq_refl) as [_ ->]. revert Hinv.
      destruct (isLoading (state w));
        (split; [lia|]; intros _ Hno Heq; split; [exact Hno | lia]).
  - injection Hstep as <-. unfold handleDownloadAll.
    by destruct (generatedImages (state w)); [rewrite perform_nil|].
  - by rewrite (step_download_rejected _ _ _ Hstep).
Qed.

Lemma userRun_one_batch (evs : list Event) :
  ∀ w w', userRun E w evs = Some w' →
    suspended (batches w) ≤ (if isLoading (state w) then 1 else 0) →
    suspended (batches w') ≤ (if isLoading (state w') then 1 else 0)
    ∧ (Forall (λ ev, ¬ isFailedRead ev) evs →
       (∀ f, originalImage (state w) ≠ Some (Unloaded f)) →
       suspended (batches w) = (if isLoading (state w) then 1 else 0) →
       suspended (batches w') = (if isLoading (state w') then 1 else 0)).
Proof.
  induction evs as [|ev evs IH]; intros w w' Hrun Hinv.
  - injection Hrun as <-. by split.
  - cbn in Hrun. destruct (offered (state w) ev) eqn:Hoff; [|done].
    destruct (step E w ev) as [w1|] eqn:Hstep; [|done].
    cbn in Hrun.
    destruct (step_one_batch w ev w1 Hoff Hstep Hinv) as [Hle Hexact].
    destruct (IH w1 w' Hrun Hle) as [Hle' Hexact'].
    split; [done|]. intros Hevs Hno Heq.
    apply Forall_cons in Hevs as [Hev Hevs].
    destruct (Hexact Hev Hno Heq) as [Hno1 Heq1]. by apply Hexact'.
Qed.

End OneBatch.

(** X7. When every user action goes through a rendered control (the
    Generate button is disabled while loading), at most one batch is
    suspended at its [await] at any time, and while one is, the loading
    flag is on: the progress block is shown and the button is disabled. As
    long as no read has failed, the converse holds too: the flag is on
    exactly while a batch is suspended. (After a failed read, Generate
    turns the flag on without starting a batch.) *)
Theorem one_batch_at_a_time (E : list Js.str) (evs : list Event) (w : World) :
  userRun E initialWorld evs = Some w →
  suspended (batches w) ≤ 1
  ∧ (suspended (batches w) = 1 →
     showsProgress (render (state w)) = true
     ∧ generateDisabled (render (state w)) = true)
  ∧ (generateDisabled (render (state w)) = false → suspended (batches w) = 0)
  ∧ (Forall (λ ev, ¬ isFailedRead ev) evs →
     (showsProgress (render (state w)) = true ↔ suspended (batches w) = 1)
     ∧ (generateDisabled (render (state w)) = false ↔ suspended (batches w) = 0)).
Proof.
  intros Hrun.
  destruct (userRun_one_batch E evs initialWorld w Hrun) as [Hle Hexact];
    [cbn; lia|].
  cbn [render showsProgress generateDisabled].
  split; [destruct (isLoading (state w)); lia|].
  split; [destruct (isLoading (state w)); [done | lia]|].
  split; [destruct (isLoading (state w)); [done | lia]|].
  intros Hevs. specialize (Hexact Hevs (λ f, ltac:(discriminate)) eq_refl).
  destruct (isLoading (state w)); rewrite Hexact; split; split; intros; try done; lia.
Qed.

(** The sample session goes through the rendered controls. Started twice
    by calling the handler directly, two batches are suspended at once;
    and after a read that has failed, Generate through the button leaves
    the progress block on with no batch suspended. *)
Lemma one_batch_at_a_time_witness :
  (∃ w,
     userRun sampleCatalog initialWorld sampleSession = Some w
     ∧ suspended (batches w) ≤ 1
     ∧ (suspended (batches w) = 1 →
        showsProgress (render (state w)) = true
        ∧ generateDisabled (render (state w)) = true)
     ∧ (generateDisabled (render (state w)) = false → suspended (batches w) = 0)
     ∧ (showsProgress (render (state w)) = true ↔ suspended (batches w) = 1)
     ∧ (generateDisabled (render (state w)) = false ↔ suspended (batches w) = 0))
  ∧ (suspended ∘ batches) <$>
      run sampleCatalog sampleWorld [GenerateExpressions; GenerateExpressions]
    = Some 2
  ∧ (λ w, (showsProgress (render (state w)), suspended (batches w))) <$>
      userRun sampleCatalog initialWorld
        [FileChange [file sampleImage]; LoadEndFailed 0; GenerateExpressions]
    = Some (true, 0).
Proof.
  split; [|by vm_compute].
  destruct (userRun sampleCatalog initialWorld sampleSession) as [w|] eqn:Hrun;
    [|by vm_compute in Hrun].
  exists w. split; [reflexivity|].
  destruct (one_batch_at_a_time sampleCatalog sampleSession w Hrun)
    as (Hle & Hon & Hoff & Hexact).
  split; [exact Hle|]. split; [exact Hon|]. split; [exact Hoff|].
  apply Hexact. apply (bool_decide_unpack _). vm_compute. exact I.
Defined.

(** ** A batch and what the user does meanwhile *)

Section Meanwhile.

Variable E : list Js.str.

Implicit Types (w : World) (evs : list Event).

Lemma run_app evs1 evs2 w :
  run E w (evs1 ++ evs2) = run E w evs1 ≫= λ w', run E w' evs2.
Proof.
  revert w. induction evs1 as [|ev evs1 IH]; intros w; [done|].
  cbn. destruct (step E w ev) as [w1|]; [apply IH | done].
Qed.

(** Uploads, resets and downloads do not touch the batches. *)
Lemma step_keeps_batches w (ev : Event) w' :
  step E w ev = Some w' → ¬ isBatchEvent ev → batches w' = batches w.
Proof.
  intros Hstep Hev.
  destruct ev as [files|k result|k| | |r i o| |]; try by destruct Hev.
  - by injection Hstep as <-.
  - cbn in Hstep. destruct (reading w !! k); [|done]. by injection Hstep as <-.
  - cbn in Hstep. destruct (reading w !! k); [|done]. by injection Hstep as <-.
  - by injection Hstep as <-.
  - by injection Hstep as <-.
  - by rewrite (step_download_rejected _ _ _ Hstep).
Qed.

Lemma run_keeps_batches evs :
  ∀ w w', run E w evs = Some w' → Forall (λ ev, ¬ isBatchEvent ev) evs →
    batches w' = batches w.
Proof.
  induction evs as [|ev evs IH]; intros w w' Hrun Hevs.
  - by injection Hrun as <-.
  - apply Forall_cons in Hevs as [Hev Hevs]. cbn in Hrun.
    destruct (step E w ev) as [w1|] eqn:Hstep; [|done]. cbn in Hrun.
    rewrite (IH _ _ Hrun Hevs). by eapply step_keeps_batches.
Qed.

(** The calls that bring a batch to its successful end: progress updates,
    then the results and the end of loading. *)
Lemma callsFor_completes (outs : nat → Outcome) (past todo : list nat) :
  Forall (λ j, isResolve (outs j) = true) todo →
  resolved outs past = length past →
  length (todo ++ past) = length E →
  todo ≠ [] →
  ∃ quiet k,
    callsFor E outs past todo
    = quiet ++ [setProgress k;
                setGeneratedImages (resultsOf E (λ j, payload (outs j)));
                setIsLoading false]
    ∧ Forall isSetProgress quiet.
Proof.
  intros Hall Hpast Hlen Hne.
  destruct todo as [|j init _] using rev_ind; [done|]. clear Hne.
  apply Forall_app in Hall as [Hinit Hj]. rewrite Forall_singleton in Hj.
  rewrite !length_app in Hlen. cbn [length] in Hlen.
  destruct (callsFor_resolving E outs init past Hinit Hpast) as [Hquiet Haw];
    [rewrite length_app; lia|].
  unfold batchAfter in Haw. cbn [awaiting] in Haw.
  apply andb_true_iff in Haw as [Haw _].
  exists (callsFor E outs past init), (percent E (S (resolved outs (rev init ++ past)))).
  split; [|done].
  rewrite callsFor_app. cbn [callsFor]. unfold callsAt. rewrite Haw, app_nil_r.
  destruct (outs j); [|discriminate].
  by rewrite bool_decide_eq_true_2 by (rewrite length_app, length_rev; lia).
Qed.

Lemma resolved_all_resolve (outs : nat → Outcome) (l : list nat) :
  (∀ j, isResolve (outs j) = true) → resolved outs l = length l.
Proof.
  intros Hall. induction l as [|i l IH]; [done|].
  rewrite resolved_cons, Hall. cbn. by rewrite IH.
Qed.

End Meanwhile.

(** X8. What the user does during a batch (a reset, the upload of another
    image) does not cancel it: when the remaining calls resolve, the
    images generated for the image the batch was started with are shown,
    next to whatever image, or none, the user's actions have left. *)
Theorem batch_survives_user_actions (E : list Js.str) (w wa wb : World)
    (image : OriginalImage) (payloads : nat → Js.str)
    (pre post : list nat) (mid : list Event) :
  originalImage (state w) = Some image →
  pre ++ post ≡ₚ seq 0 (length E) →
  post ≠ [] →
  Forall (λ ev, ¬ isBatchEvent ev) mid →
  run E w (GenerateExpressions
           :: settles (length (batches w)) (λ i, Resolve (payloads i)) pre) = Some wa →
  run E wa mid = Some wb →
  ∃ wc,
    run E wb (settles (length (batches w)) (λ i, Resolve (payloads i)) post) = Some wc
    ∧ generatedImages (state wc) = resultsOf E payloads
    ∧ isLoading (state wc) = false
    ∧ originalImage (state wc) = originalImage (state wb).
Proof.
  intros Himg Hp Hpost Hmid Hwa Hwb.
  set (outs := λ i, Resolve (payloads i)) in *.
  destruct (order_range E (pre ++ post) Hp) as (Hnd & Hr & Hlen).
  rewrite app_nil_r in Hnd, Hr.
  cbn [run] in Hwa. rewrite (step_generate E outs w image Himg) in Hwa.
  cbn [mbind option_bind] in Hwa.
  rewrite (run_settles E outs (length (batches w)) pre []) in Hwa.
  2:{ cbn [batches perform withBatches]. by apply list_lookup_middle. }
  2:{ rewrite app_nil_r. by apply NoDup_app in Hnd as (? & _). }
  2:{ rewrite app_nil_r. by apply Forall_app in Hr as [? _]. }
  injection Hwa as <-.
  assert (batches wb !! length (batches w) = Some (batchAfter E outs (rev pre ++ [])))
    as Hb.
  { rewrite (run_keeps_batches E mid _ _ Hwb Hmid).
    cbn [batches perform withBatches]. apply list_lookup_insert_eq.
    rewrite length_app. cbn. lia. }
  eexists. split.
  { apply (run_settles E outs (length (batches w)) post (rev pre ++ []) wb Hb).
    - rewrite app_nil_r, <- Permutation_rev. by rewrite Permutation_app_comm.
    - rewrite app_nil_r, <- Permutation_rev. by rewrite Permutation_app_comm. }
  destruct (callsFor_completes E outs (rev pre ++ []) post) as (quiet & k & -> & Hquiet).
  - apply Forall_forall. by intros.
  - by apply resolved_all_resolve.
  - rewrite app_nil_r, length_app, length_rev. rewrite length_app in Hlen. lia.
  - done.
  - cbn [state perform withBatches]. rewrite foldl_app.
    destruct (foldl_setProgress quiet (state wb) Hquiet) as (Ho & _).
    cbn. by rewrite Ho.
Qed.

(** A reset after three of the eight calls have come back: the eight
    images appear all the same, with no original image. *)
Lemma batch_survives_user_actions_witness :
  ∃ wa wb wc,
    run sampleCatalog sampleWorld
      (GenerateExpressions :: settles 0 (λ i, Resolve (Js.lit "AA==" ++ [N.of_nat i])) [3; 1; 0])
    = Some wa
    ∧ run sampleCatalog wa [ResetClick] = Some wb
    ∧ run sampleCatalog wb
        (settles 0 (λ i, Resolve (Js.lit "AA==" ++ [N.of_nat i])) [2; 7; 6; 5; 4])
      = Some wc
    ∧ originalImage (state wc) = None
    ∧ generatedImages (state wc)
      = resultsOf sampleCatalog (λ i, Js.lit "AA==" ++ [N.of_nat i])
    ∧ isLoading (state wc) = false.
Proof.
  destruct (run sampleCatalog sampleWorld
              (GenerateExpressions
               :: settles 0 (λ i, Resolve (Js.lit "AA==" ++ [N.of_nat i])) [3; 1; 0]))
    as [wa|] eqn:Ha; [|by vm_compute in Ha].
  destruct (batch_survives_user_actions sampleCatalog sampleWorld wa
              (perform handleReset wa) sampleImage
              (λ i, Js.lit "AA==" ++ [N.of_nat i]) [3; 1; 0] [2; 7; 6; 5; 4]
              [ResetClick])
    as (wc & Hc & Hg & Hl & Ho).
  - reflexivity.
  - apply (bool_decide_unpack _). vm_compute. exact I.
  - discriminate.
  - repeat constructor. intros [].
  - exact Ha.
  - reflexivity.
  - exists wa, (perform handleReset wa), wc.
    split; [reflexivity|]. split; [reflexivity|]. split; [exact Hc|].
    split; [by rewrite Ho|]. by split.
Defined.

(** ** Uploading *)

(** X9. When two files are selected before either read has ended, the
    image is the file whose read ends last, here the one selected first;
    each end of a read replaces the image and clears the generated images,
    the error and the progress, and leaves the loading flag as it is. Of a
    selection of several files only the first is read. *)
Theorem last_read_wins (E : list Js.str) (w : World) (f1 f2 : File)
    (rest1 rest2 : list File) (d1 d2 : Js.str) :
  originalImage (state w) = None →
  reading w = [] →
  «"image/"» `prefix_of` type f1 →
  «"image/"» `prefix_of` type f2 →
  ∃ w',
    userRun E w [FileChange (f1 :: rest1); FileChange (f2 :: rest2);
                 LoadEnd 1 d2; LoadEnd 0 d1] = Some w'
    ∧ state w' = {| originalImage := Some {| file := f1; dataUrl := d1 |};
                    generatedImages := []; isLoading := isLoading (state w);
                    error := None; progress := 0 |}
    ∧ reading w' = []
    ∧ batches w' = batches w.
Proof.
  intros Hnone Hreading Hf1 Hf2.
  apply startsWith_prefix in Hf1, Hf2.
  eexists. split; [|split; [|split]].
  - cbn [userRun offered render showsUploader]. rewrite Hnone.
    rewrite bool_decide_eq_true_2 by done.
    cbn [step handleFileChange]. unfold handleFileChange.
    cbn [lookup list_lookup]. rewrite Hf1. cbn [mbind option_bind].
    cbn [state perform foldl assign]. rewrite Hnone.
    rewrite bool_decide_eq_true_2 by done.
    cbn [lookup list_lookup]. rewrite Hf2. cbn [mbind option_bind].
    cbn [reading perform omap list_omap]. rewrite Hreading.
    cbn [app lookup list_lookup mbind option_bind]. reflexivity.
  - reflexivity.
  - reflexivity.
  - reflexivity.
Qed.

Lemma last_read_wins_witness :
  ∃ w',
    userRun sampleCatalog initialWorld
      [FileChange [file sampleImage; {| name := «"b.png"»; type := «"image/png"» |}];
       FileChange [{| name := «"c.webp"»; type := «"image/webp"» |}];
       LoadEnd 1 «"data:image/webp;base64,UklG"»;
       LoadEnd 0 (dataUrl sampleImage)] = Some w'
    ∧ state w' = {| originalImage := Some {| file := file sampleImage;
                                            dataUrl := dataUrl sampleImage |};
                    generatedImages := []; isLoading := isLoading (state initialWorld);
                    error := None; progress := 0 |}
    ∧ reading w' = []
    ∧ batches w' = batches initialWorld.
Proof.
  apply (last_read_wins sampleCatalog initialWorld (file sampleImage)
           {| name := «"c.webp"»; type := «"image/webp"» |}
           [{| name := «"b.png"»; type := «"image/png"» |}] []
           (dataUrl sampleImage) «"data:image/webp;base64,UklG"»).
  - reflexivity.
  - reflexivity.
  - apply startsWith_prefix. reflexivity.
  - apply startsWith_prefix. reflexivity.
Defined.

(** ** Requests *)

Lemma requests_app (cs1 cs2 : list Call) :
  requests (cs1 ++ cs2) = requests cs1 ++ requests cs2.
Proof. apply omap_app. Qed.

Lemma requests_generate (base64Data : option Js.str) (mimeType : Js.str)
    (labels : list Js.str) :
  requests (generateExpression base64Data mimeType <$> labels)
  = (λ e, (base64Data, mimeType, e)) <$> labels.
Proof.
  induction labels as [|l labels IH]; [done|].
  cbn [fmap list_fmap]. change (requests (?c :: ?cs)) with (requests [c] ++ requests cs).
  by rewrite IH.
Qed.

(** X10. With an image whose read has given a data URL,
    [handleGenerateExpressions] sends exactly one request per catalog
    label, in catalog order, each with the media type of the uploaded file
    and the same image data: the text of the data URL between its first
    comma and the next one. For a data URL made of a prefix, a comma and a
    payload without comma that is the payload; for a string without comma
    the data is [undefined]. With an image whose read has failed (its
    [dataUrl] is [null]) the handler stops after its four resets: it sends
    no request and starts no batch, and the loading flag stays on. *)
Theorem one_request_per_label (E : list Js.str) (w : World) (uploaded : Uploaded) :
  originalImage (state w) = Some uploaded →
  ∃ cs w',
    callsDuring E w [GenerateExpressions] = Some cs
    ∧ step E w GenerateExpressions = Some w'
    ∧ match uploaded with
      | Loaded image =>
          requests cs
          = (λ e, (Js.split 44 (dataUrl image) !! 1, type (file image), e)) <$> E
          ∧ length (requests cs) = length E
          ∧ length (batches w') = S (length (batches w))
          ∧ (∀ d, afterFirst 44 (dataUrl image) = Some d → 44%N ∉ d →
               Js.split 44 (dataUrl image) !! 1 = Some d)
          ∧ (44%N ∉ dataUrl image → Js.split 44 (dataUrl image) !! 1 = None)
      | Unloaded _ =>
          cs = [setIsLoading true; setError None; setGeneratedImages [];
                setProgress 0]
          ∧ requests cs = []
          ∧ batches w' = batches w
          ∧ isLoading (state w') = true
      end.
Proof.
  intros Himg. destruct uploaded as [image|f].
  - exists (startCalls E image). eexists.
    assert (requests (startCalls E image)
            = (λ e, (Js.split 44 (dataUrl image) !! 1, type (file image), e)) <$> E)
      as Hreq.
    { unfold startCalls. rewrite !requests_app, requests_generate.
      destruct (bool_decide _); cbn; by rewrite app_nil_r. }
    pose proof (step_generate E (λ _, Reject Nullish) w image Himg) as Hstep.
    split; [|split; [exact Hstep|split; [done|split; [|split; [|split]]]]].
    + unfold callsDuring. cbn [run]. rewrite Hstep.
      cbn [mbind option_bind calls perform withBatches]. by rewrite drop_app_length.
    + by rewrite Hreq, length_fmap.
    + cbn [batches perform withBatches]. rewrite length_app. cbn. lia.
    + intros d Hd Hcomma. by apply split_payload.
    + intros Hcomma. by rewrite split_no_separator.
  - assert (step E w GenerateExpressions
            = Some (perform [setIsLoading true; setError None; setGeneratedImages [];
                             setProgress 0] (withBatches (batches w ++ []) w)))
      as Hstep by (unfold step, handleGenerateExpressions; by rewrite Himg).
    eexists _, _. split; [|split; [exact Hstep|]].
    + unfold callsDuring. cbn [run]. rewrite Hstep.
      cbn [mbind option_bind calls perform withBatches]. by rewrite drop_app_length.
    + cbn [batches perform withBatches]. by rewrite app_nil_r.
Qed.

(** The sample image; and the same file after a read that has failed. *)
Lemma one_request_per_label_witness :
  (∃ cs,
     callsDuring sampleCatalog sampleWorld [GenerateExpressions] = Some cs
     ∧ requests cs = (λ e, (Some «"/9j/"», «"image/jpeg"», e)) <$> sampleCatalog
     ∧ length (requests cs) = 8)
  ∧ ∃ w w',
      run sampleCatalog initialWorld
        [FileChange [file sampleImage]; LoadEndFailed 0] = Some w
      ∧ step sampleCatalog w GenerateExpressions = Some w'
      ∧ callsDuring sampleCatalog w [GenerateExpressions]
        = Some [setIsLoading true; setError None; setGeneratedImages [];
                setProgress 0]
      ∧ batches w' = []
      ∧ isLoading (state w') = true.
Proof.
  split.
  - destruct (one_request_per_label sampleCatalog sampleWorld sampleImage eq_refl)
      as (cs & w' & Hcs & _ & Hreq & Hlen & _).
    exists cs. split; [exact Hcs|]. split; [exact Hreq | exact Hlen].
  - destruct (run sampleCatalog initialWorld
                [FileChange [file sampleImage]; LoadEndFailed 0]) as [w|] eqn:Hrun;
      [|by vm_compute in Hrun].
    assert (originalImage (state w) = Some (Unloaded (file sampleImage))
            ∧ batches w = []) as [Himg Hbs].
    { revert Hrun. vm_compute. by intros [= <-]. }
    destruct (one_request_per_label sampleCatalog w (Unloaded (file sampleImage)) Himg)
      as (cs & w' & Hcs & Hstep & -> & _ & Hb & Hl).
    exists w, w'. split; [reflexivity|]. split; [exact Hstep|].
    split; [exact Hcs|]. split; [by rewrite Hb | exact Hl].
Defined.

(** ** What is shown during and after a batch *)

(** X11. From a state with an image whose read has given a data URL, after
    Generate and then nothing but some of the calls of this batch, not all
    of them, coming back with success, in any order, the application is
    loading: the generated images are empty, the error is [null], the
    progress block is rendered with the percentage of the calls completed,
    the Generate button is disabled and reads "Generating...", and neither
    results nor an error are shown. *)
Theorem loading_while_calls_are_out (E : list Js.str) (w : World)
    (image : OriginalImage) (payloads : nat → Js.str) (pre : list nat) :
  originalImage (state w) = Some image →
  NoDup pre →
  Forall (λ i, i < length E) pre →
  length pre < length E →
  ∃ w1,
    run E w (GenerateExpressions
             :: settles (length (batches w)) (λ i, Resolve (payloads i)) pre) = Some w1
    ∧ isLoading (state w1) = true
    ∧ generatedImages (state w1) = []
    ∧ error (state w1) = None
    ∧ progress (state w1)
      = (if pre is [] then 0%Z else percent E (length pre))
    ∧ render (state w1)
      = {| showsError := false; showsUploader := false; showsOriginal := true;
           generateDisabled := true; generateLabel := «"Generating..."»;
           showsProgress := true; showsResults := false |}.
Proof.
  intros Himg Hnd Hr Hlen.
  set (outs := λ i, Resolve (payloads i)).
  eexists. split.
  { cbn [run]. rewrite (step_generate E outs w image Himg). cbn [mbind option_bind].
    apply (run_settles E outs (length (batches w)) pre []);
      [|by rewrite app_nil_r..].
    cbn [batches perform withBatches]. by apply list_lookup_middle. }
  cbn [state perform withBatches].
  destruct (state_started E image (state w)) as (Ho & Hgen & Herr & Hzero & Hload).
  destruct (callsFor_resolving E outs pre []) as [Hquiet _];
    [by apply Forall_forall | done | by rewrite app_nil_r |].
  destruct (foldl_setProgress _ (foldl (λ s c, assign c s) (state w) (startCalls E image))
              Hquiet) as (Ho' & Hgen' & Hload' & Herr').
  assert (progress (foldl (λ s c, assign c s)
                      (foldl (λ s c, assign c s) (state w) (startCalls E image))
                      (callsFor E outs [] pre))
          = (if pre is [] then 0%Z else percent E (length pre))) as Hprog.
  { rewrite progress_last, emitted_callsFor, Hzero.
    rewrite (resolved_all_resolve outs pre) by done.
    destruct pre as [|i pre] using rev_ind; [done|].
    rewrite length_app. cbn [length]. rewrite Nat.add_1_r, seq_S, fmap_app.
    cbn [fmap list_fmap]. rewrite last_snoc. cbn [default].
    by destruct (pre ++ [i]) eqn:Hl; [destruct pre|]. }
  assert (isLoading (foldl (λ s c, assign c s)
                       (foldl (λ s c, assign c s) (state w) (startCalls E image))
                       (callsFor E outs [] pre)) = true) as Hloading.
  { rewrite Hload', Hload. apply bool_decide_eq_true. lia. }
  split; [exact Hloading|]. split; [by rewrite Hgen'|]. split; [by rewrite Herr'|].
  split; [exact Hprog|].
  unfold render. rewrite Hloading, Herr', Herr, Hgen', Hgen, Ho', Ho, Himg. cbn [truthy length negb andb].
  rewrite bool_decide_eq_false_2 by done.
  rewrite bool_decide_eq_true_2 by done.
  by rewrite andb_false_r.
Qed.

Lemma loading_while_calls_are_out_witness :
  ∃ w1,
    run sampleCatalog sampleWorld
      (GenerateExpressions :: settles 0 (λ i, Resolve «"AA=="») [5; 2; 7]) = Some w1
    ∧ isLoading (state w1) = true
    ∧ generatedImages (state w1) = []
    ∧ error (state w1) = None
    ∧ progress (state w1) = 38%Z
    ∧ render (state w1)
      = {| showsError := false; showsUploader := false; showsOriginal := true;
           generateDisabled := true; generateLabel := «"Generating..."»;
           showsProgress := true; showsResults := false |}.
Proof.
  apply (loading_while_calls_are_out sampleCatalog sampleWorld sampleImage
           (λ _, «"AA=="») [5; 2; 7]).
  - reflexivity.
  - apply (bool_decide_unpack _). vm_compute. exact I.
  - apply (bool_decide_unpack _). vm_compute. exact I.
  - cbn. lia.
Defined.

(** X12. From a state with an image whose read has given a data URL, after
    Generate and then nothing but the calls of this batch coming back, all
    of them and at least one with a failure: the progress block and the
    results are not rendered, the Generate button is enabled again, so
    that the user can retry, and there is nothing to download. When the
    reason of the first rejection is [null] or [undefined], no error
    banner is rendered; otherwise, for a reason whose message is absent or
    a string, the banner is rendered, with a text that is never empty
    thanks to the fixed fallback. *)
Theorem failure_is_shown (E : list Js.str) (w : World) (image : OriginalImage)
    (outs : nat → Outcome) (order : list nat) :
  originalImage (state w) = Some image →
  order ≡ₚ seq 0 (length E) →
  (∃ i, i < length E ∧ isResolve (outs i) = false) →
  ∃ w2 pre j post reason,
    run E w (GenerateExpressions :: settles (length (batches w)) outs order) = Some w2
    ∧ order = pre ++ j :: post
    ∧ Forall (λ i, isResolve (outs i) = true) pre
    ∧ outs j = Reject reason
    ∧ render (state w2)
      = {| showsError := match reason with Nullish => false | Thrown _ => true end;
           showsUploader := false; showsOriginal := true;
           generateDisabled := false; generateLabel := «"Generate 8 Expressions"»;
           showsProgress := false; showsResults := false |}
    ∧ offered (state w2) GenerateExpressions = true
    ∧ offered (state w2) DownloadAll = false.
Proof.
  intros Himg Hp (i & Hi & Hrej).
  destruct (order_range E order Hp) as (Hnd & Hr & Hlen).
  assert (Exists (λ i, isResolve (outs i) = false) order) as Hex.
  { apply Exists_exists. exists i. split; [|done]. rewrite Hp.
    apply elem_of_seq. lia. }
  destruct (first_reject outs order Hex)
    as (pre & j & post & reason & -> & Hpre & Hj).
  eexists _, pre, j, post, reason. split.
  { cbn [run]. rewrite (step_generate E outs w image Himg). cbn [mbind option_bind].
    apply (run_settles E outs (length (batches w)) (pre ++ j :: post) []); [|done..].
    cbn [batches perform withBatches]. by apply list_lookup_middle. }
  split; [done|]. split; [done|]. split; [done|].
  rewrite app_nil_r in Hnd, Hr.
  cbn [state perform withBatches].
  destruct (state_started E image (state w)) as (Ho & Hgen & Herr & _).
  destruct (state_rejected E outs pre j post reason
              (foldl (λ s c, assign c s) (state w) (startCalls E image))
              Hnd Hr Hpre Hj) as (Herr2 & Hload2 & Hgen2 & Ho2).
  assert (truthy (reported reason None)
          = match reason with Nullish => false | Thrown _ => true end) as Htruthy.
  { destruct reason as [|err]; [done|]. cbn [reported]. unfold errorText.
    by destruct (message err) as [[|c m]|]. }
  unfold offered, render. cbn [showsOriginal generateDisabled showsResults].
  rewrite Herr2, Hload2, Hgen2, Ho2, Herr, Hgen, Ho, Himg, Htruthy.
  cbn [length negb andb].
  rewrite bool_decide_eq_false_2 by done.
  rewrite bool_decide_eq_true_2 by done.
  by rewrite (bool_decide_eq_false_2 (0 < 0)) by lia.
Qed.

(** A failure without a message, and one whose reason is [undefined]. *)
Lemma failure_is_shown_witness :
  (∃ w2,
     run sampleCatalog sampleWorld
       (GenerateExpressions
        :: settles 0 (λ i, if (i =? 6)%nat then Reject {| message := None |}
                           else Resolve «"AA=="») [5; 6; 0; 1; 2; 3; 4; 7]) = Some w2
     ∧ render (state w2)
       = {| showsError := true; showsUploader := false; showsOriginal := true;
            generateDisabled := false; generateLabel := «"Generate 8 Expressions"»;
            showsProgress := false; showsResults := false |}
     ∧ offered (state w2) GenerateExpressions = true
     ∧ offered (state w2) DownloadAll = false)
  ∧ ∃ w2,
      run sampleCatalog sampleWorld
        (GenerateExpressions
         :: settles 0 (λ i, if (i =? 6)%nat then Reject Nullish
                            else Resolve «"AA=="») [5; 6; 0; 1; 2; 3; 4; 7]) = Some w2
      ∧ render (state w2)
        = {| showsError := false; showsUploader := false; showsOriginal := true;
             generateDisabled := false; generateLabel := «"Generate 8 Expressions"»;
             showsProgress := false; showsResults := false |}
      ∧ offered (state w2) GenerateExpressions = true
      ∧ offered (state w2) DownloadAll = false.
Proof.
  split.
  - destruct (failure_is_shown sampleCatalog sampleWorld sampleImage
                (λ i, if (i =? 6)%nat then Reject {| message := None |}
                      else Resolve «"AA=="») [5; 6; 0; 1; 2; 3; 4; 7])
      as (w2 & pre & j & post & reason & Hrun & Horder & Hpre & Hj & Hview & Hoff).
    + reflexivity.
    + apply (bool_decide_unpack _). vm_compute. exact I.
    + exists 6. split; [cbn; lia | reflexivity].
    + exists w2. split; [exact Hrun|]. split; [|exact Hoff].
      rewrite Hview. destruct reason as [|err]; [|reflexivity].
      exfalso. destruct pre as [|a [|b pre]].
      * injection Horder as <- _. discriminate Hj.
      * injection Horder as _ <- _. discriminate Hj.
      * injection Horder as <- <- _. apply Forall_cons in Hpre as [_ Hpre].
        apply Forall_cons in Hpre as [Hb _]. discriminate Hb.
  - destruct (failure_is_shown sampleCatalog sampleWorld sampleImage
                (λ i, if (i =? 6)%nat then Reject Nullish
                      else Resolve «"AA=="») [5; 6; 0; 1; 2; 3; 4; 7])
      as (w2 & pre & j & post & reason & Hrun & Horder & Hpre & Hj & Hview & Hoff).
    + reflexivity.
    + apply (bool_decide_unpack _). vm_compute. exact I.
    + exists 6. split; [cbn; lia | reflexivity].
    + exists w2. split; [exact Hrun|]. split; [|exact Hoff].
      rewrite Hview. destruct reason as [|err]; [reflexivity|].
      exfalso. destruct pre as [|a [|b pre]].
      * injection Horder as <- _. discriminate Hj.
      * injection Horder as _ <- _. discriminate Hj.
      * injection Horder as <- <- _. apply Forall_cons in Hpre as [_ Hpre].
        apply Forall_cons in Hpre as [Hb _]. discriminate Hb.
Defined.

Lemma resultsOf_lookup (E : list Js.str) (payloads : nat → Js.str) (i : nat) :
  resultsOf E payloads !! i
  = (λ e, {| expression := e;
             base64 := «"data:image/png;base64,"» ++ payloads i |}) <$> E !! i.
Proof. apply list_lookup_imap. Qed.

Lemma resultsOf_names (E : list Js.str) (payloads : nat → Js.str) :
  (λ img, fileName (expression img)) <$> resultsOf E payloads = fileName <$> E.
Proof.
  apply list_eq. intros i. rewrite !list_lookup_fmap, resultsOf_lookup.
  by destruct (E !! i).
Qed.

(** X13. After a batch in which every call has succeeded, the download
    button is offered, and the archive [handleDownloadAll] builds is
    generated and gives back, under the derived name of each label, the
    decoded payload that the call for this label returned, provided the
    derived names are pairwise distinct, no label contains a slash, and
    every payload is without comma and accepted by the library's base64
    decoder (any decoder that decodes the empty string to no bytes). *)
Theorem download_returns_payloads (decode : Js.str → option (list Byte.byte))
    (E : list Js.str) (w : World) (image : OriginalImage)
    (payloads : nat → Js.str) (order : list nat) :
  decode [] = Some [] →
  originalImage (state w) = Some image →
  E ≠ [] →
  order ≡ₚ seq 0 (length E) →
  NoDup (fileName <$> E) →
  Forall (λ label, 47%N ∉ label) E →
  (∀ i, i < length E → (44%N ∉ payloads i) ∧ is_Some (decode (payloads i))) →
  ∃ w2 zip blob,
    run E w (GenerateExpressions
             :: settles (length (batches w)) (λ i, Resolve (payloads i)) order) = Some w2
    ∧ offered (state w2) DownloadAll = true
    ∧ callsDuring E w2 [DownloadAll] = Some [download «"character_expressions.zip"» zip]
    ∧ JSZip.generateAsync decode zip = Some blob
    ∧ size zip = length E
    ∧ size blob = length E
    ∧ ∀ i e, E !! i = Some e → blob !! fileName e = decode (payloads i).
Proof.
  intros Hempty Himg HE Hp Hnames Hflat Hpayloads.
  destruct (run_all_resolved E w image (λ i, Resolve (payloads i)) order Himg Hp)
    as (w1 & w2 & Hstep & Hrun & Hgen & Hload & _); [done|].
  cbn [payload] in Hgen.
  assert (NoDup ((λ img, fileName (expression img)) <$> generatedImages (state w2)))
    as Hnd by (by rewrite Hgen, resultsOf_names).
  assert (generatedImages (state w2) ≠ []) as Hne.
  { rewrite Hgen. destruct E; [done|]. unfold resultsOf. by rewrite imap_cons. }
  assert (∀ img, img ∈ generatedImages (state w2) →
            ∃ i e, E !! i = Some e
                   ∧ img = {| expression := e;
                              base64 := «"data:image/png;base64,"» ++ payloads i |})
    as Himgs.
  { intros img Hin. rewrite Hgen in Hin. apply list_elem_of_lookup in Hin as [i Hi].
    rewrite resultsOf_lookup in Hi. destruct (E !! i) as [e|] eqn:He; [|done].
    injection Hi as <-. by exists i, e. }
  assert (∀ i e, E !! i = Some e →
            JSZip.bytes decode
              (JSZip.Data (Js.split 44 («"data:image/png;base64,"» ++ payloads i) !! 1))
            = decode (payloads i)) as Hbytes.
  { intros i e He. destruct (Hpayloads i) as [Hcomma Hok]; [by eapply lookup_lt_Some|].
    rewrite (split_payload 44 _ (payloads i)); [|reflexivity|done].
    cbn [JSZip.bytes]. by destruct (payloads i). }
  exists w2, (archiveOf (generatedImages (state w2))). eexists.
  split; [cbn [run]; by rewrite Hstep|].
  split.
  { cbn [offered render showsResults]. rewrite Hload.
    destruct (generatedImages (state w2)); [done|].
    cbn. by rewrite bool_decide_eq_true_2 by lia. }
  split.
  { unfold callsDuring. cbn [run step mbind option_bind calls perform].
    rewrite drop_app_length. unfold handleDownloadAll.
    by destruct (generatedImages (state w2)). }
  split.
  { apply generateAsync_archiveOf. intros img Hin.
    destruct (Himgs img Hin) as (i & e & He & ->). cbn [base64].
    rewrite (Hbytes i e He). apply Hpayloads. by eapply lookup_lt_Some. }
  assert (size (archiveOf (generatedImages (state w2))) = length E) as Hsize.
  { rewrite archiveOf_size; [by rewrite Hgen; apply length_imap| |done].
    apply Forall_forall. intros img Hin.
    destruct (Himgs img Hin) as (i & e & He & ->). cbn [expression].
    eapply Forall_lookup_1 in Hflat; [exact Hflat | exact He]. }
  split; [done|]. split; [by rewrite map_size_fmap|].
  intros i e He.
  assert ({| expression := e; base64 := «"data:image/png;base64,"» ++ payloads i |}
          ∈ generatedImages (state w2)) as Hin.
  { apply list_elem_of_lookup. exists i. by rewrite Hgen, resultsOf_lookup, He. }
  pose proof (archiveOf_lookup _ _ Hnd Hin) as Hl. cbn [expression base64] in Hl.
  rewrite lookup_fmap, Hl. cbn [fmap option_fmap option_map].
  rewrite (Hbytes i e He).
  destruct (Hpayloads i) as [_ [content ->]]; [by eapply lookup_lt_Some | done].
Qed.

Lemma download_returns_payloads_witness :
  ∃ w2 zip blob,
    run sampleCatalog sampleWorld
      (GenerateExpressions
       :: settles 0 (λ i, Resolve (if (i =? 3)%nat then «"TWFu"» else «"AA=="»))
            [7; 3; 0; 1; 2; 4; 5; 6]) = Some w2
    ∧ offered (state w2) DownloadAll = true
    ∧ callsDuring sampleCatalog w2 [DownloadAll]
      = Some [download «"character_expressions.zip"» zip]
    ∧ JSZip.generateAsync Base64.decode zip = Some blob
    ∧ size blob = 8
    ∧ blob !! «"Surprised_Gasp.png"» = Some [Byte.x4d; Byte.x61; Byte.x6e].
Proof.
  destruct (download_returns_payloads Base64.decode sampleCatalog sampleWorld
              sampleImage (λ i, if (i =? 3)%nat then «"TWFu"» else «"AA=="»)
              [7; 3; 0; 1; 2; 4; 5; 6])
    as (w2 & zip & blob & Hrun & Hoff & Hcalls & Hblob & _ & Hsize & Hcontent).
  - reflexivity.
  - reflexivity.
  - discriminate.
  - apply (bool_decide_unpack _). vm_compute. exact I.
  - apply (bool_decide_unpack _). vm_compute. exact I.
  - apply (bool_decide_unpack _). vm_compute. exact I.
  - intros i Hi.
    do 8 (destruct i as [|i];
          [split; [apply (bool_decide_unpack _); vm_compute; exact I
                  | vm_compute; by eexists]|]).
    cbn in Hi. lia.
  - exists w2, zip, blob. split; [exact Hrun|]. split; [exact Hoff|].
    split; [exact Hcalls|]. split; [exact Hblob|]. split; [exact Hsize|].
    exact (Hcontent 3 «"Surprised (Gasp)"» eq_refl).
Defined.

(** ** Late completions *)

(** X14. A call of a batch that has already ended (after a failure, say)
    still runs its [then] callback when it resolves: the progress is
    overwritten with the percentage of that old batch, whatever batch is
    loading now, and nothing else changes: neither the images, nor the
    error, nor the loading flag, nor the image. *)
Theorem late_completion_moves_progress (E : list Js.str) (w : World) (r i : nat)
    (b : Batch) (e newBase64 : Js.str) :
  batches w !! r = Some b →
  awaiting b = false →
  promises b !! i = Some Pending →
  E !! i = Some e →
  ∃ w',
    step E w (Settle r i (Resolve newBase64)) = Some w'
    ∧ state w'
      = {| originalImage := originalImage (state w);
           generatedImages := generatedImages (state w);
           isLoading := isLoading (state w);
           error := error (state w);
           progress := percent E (S (completedCount b)) |}
    ∧ callsDuring E w [Settle r i (Resolve newBase64)]
      = Some [setProgress (percent E (S (completedCount b)))].
Proof.
  intros Hb Haw Hp He.
  assert (step E w (Settle r i (Resolve newBase64))
          = Some (perform [setProgress (percent E (S (completedCount b)))]
                    (withBatches
                       (<[r := {| completedCount := S (completedCount b);
                                  promises :=
                                    <[i := Fulfilled
                                            {| expression := e;
                                               base64 := «"data:image/png;base64,"»
                                                         ++ newBase64 |}]>
                                      (promises b);
                                  awaiting := false |}]> (batches w)) w))) as Hstep.
  { unfold step. rewrite Hb. cbn [mbind option_bind]. rewrite Hp, He.
    cbn [mbind option_bind]. unfold settle, resume. cbn [awaiting].
    by rewrite Haw. }
  eexists. split; [exact Hstep|]. split; [reflexivity|].
  unfold callsDuring. cbn [run]. rewrite Hstep.
  cbn [mbind option_bind calls perform withBatches]. by rewrite drop_app_length.
Qed.

(** The failed batch of [failedWorld], after the user has started again:
    its fourth call comes back and the new batch shows 38 per cent. *)
Lemma late_completion_moves_progress_witness :
  ∃ w w',
    run sampleCatalog failedWorld [GenerateExpressions] = Some w
    ∧ progress (state w) = 0%Z
    ∧ isLoading (state w) = true
    ∧ step sampleCatalog w (Settle 0 3 (Resolve «"AA=="»)) = Some w'
    ∧ progress (state w') = 38%Z
    ∧ isLoading (state w') = true.
Proof.
  destruct (run sampleCatalog failedWorld [GenerateExpressions]) as [w|] eqn:Hw;
    [|by vm_compute in Hw].
  assert (∃ b, batches w !! 0 = Some b ∧ awaiting b = false
               ∧ promises b !! 3 = Some Pending ∧ completedCount b = 2
               ∧ progress (state w) = 0%Z ∧ isLoading (state w) = true)
    as (b & Hb & Haw & Hp & Hc & Hprog & Hload).
  { revert Hw. vm_compute. intros [= <-]. eexists. by repeat split. }
  destruct (late_completion_moves_progress sampleCatalog w 0 3 b
              «"Surprised (Gasp)"» «"AA=="» Hb Haw Hp eq_refl)
    as (w' & Hstep & Hstate & _).
  exists w, w'. split; [reflexivity|]. split; [exact Hprog|]. split; [exact Hload|].
  split; [exact Hstep|]. rewrite Hstate, Hc. cbn [progress isLoading].
  split; [by vm_compute | exact Hload].
Defined.
